(** * PrimeCPP_PAR: the parallel prime sieve benchmark

    A shallow embedding of [PrimeCPP_PAR.cpp] (class [prime_sieve] and the
    benchmark driver [main]) together with the properties of its
    natural-language specification.

    Conventions.
    - [uint64_t] and [size_t] values are integers reduced modulo 2^64, [int]
      values are integers reduced into the signed 32-bit range, [unsigned int]
      values are reduced modulo 2^32; every arithmetic operation of the source
      is followed by the reduction of its type.
    - [vector<bool> Bits] is a [list bool]; [Bits.size()] is its length,
      [Bits[i]] is the list lookup and [Bits[i] = false] the list update.
    - Loops are small-step machines over the local variables of the function,
      run by a fuelled interpreter that reports whether the loop has halted. *)

From Stdlib Require Import ZArith Znumtheory Lia Ascii.
From stdpp Require Import base tactics option list numbers relations strings
  sorting.

Local Open Scope Z_scope.

(** ** Machine integers *)

Module Word.

(** [uint64_t], [size_t]. *)
Definition u64 (z : Z) : Z := z mod 2 ^ 64.

(** [unsigned int]. *)
Definition u32 (z : Z) : Z := z mod 2 ^ 32.

(** [int] (two's complement, 32 bits). *)
Definition i32 (z : Z) : Z := (z + 2 ^ 31) mod 2 ^ 32 - 2 ^ 31.

(** [(int) sqrt(n)] for an unsigned 64-bit [n], converted back to
    [uint64_t]: the double-precision square root is the exact real square
    root rounded, and its truncation is the integer square root for every
    [n] that a [double] holds exactly (below 2^52). *)
Definition isqrt (n : Z) : Z := u64 (i32 (Z.sqrt n)).

End Word.

(** ** A fuelled interpreter for loops *)

Section Exec.

Context {St : Type}.

(** One iteration of a loop; [None] when the loop has exited. *)
Variable step : St -> option St.

(** [exec d s] runs at most [2 ^ d] steps from [s]: [inr f] when the loop
    exited in state [f], [inl s'] when it is still running in [s']. *)
Fixpoint exec (d : nat) (s : St) : St + St :=
  match d with
  | O => match step s with Some s' => inl s' | None => inr s end
  | S d' => match exec d' s with
            | inl s' => exec d' s'
            | inr f => inr f
            end
  end.

(** The final state of a loop that exits within [2 ^ d] steps. *)
Definition run (d : nat) (s : St) : option St :=
  match exec d s with inr f => Some f | inl _ => None end.

Definition step_rel (s s' : St) : Prop := step s = Some s'.

(** [reaches s s'] : the loop started in [s] passes through [s']. *)
Definition reaches : St -> St -> Prop := rtc step_rel.

End Exec.

(** ** The sieve: class [prime_sieve] *)

Definition size (Bits : list bool) : Z := Z.of_nat (length Bits).

(** [Bits[i]] for an index of type [size_t]; [None] is an access outside the
    vector. *)
Definition at_index (Bits : list bool) (i : Z) : option bool :=
  Bits !! Z.to_nat i.

(** [prime_sieve(n) : Bits(n, true)]. *)
Definition construct (n : Z) : list bool := replicate (Z.to_nat n) true.

(** Control points of [runSieve]: the test of the [while], the first [for]
    (the search for the next factor) and the second [for] (the crossing off). *)
Inductive pc : Set := AtWhile | AtScan | AtClear.

(** The local variables of [runSieve] and the member [Bits]. *)
Record config : Type := Config {
  at_pc : pc;
  factor : Z;
  q : Z;
  num : Z;
  Bits : list bool
}.

Definition sieve_init (bits : list bool) : config :=
  Config AtWhile 3 (Word.isqrt (size bits)) 0 bits.

Definition sieve_step (c : config) : option config :=
  let '(Config p factor q num bits) := c in
  match p with
  | AtWhile =>
      if factor <=? q then Some (Config AtScan factor q factor bits)
      else None
  | AtScan =>
      if num <? size bits then
        match at_index bits num with
        | Some true =>
            Some (Config AtClear num q (Word.u64 (num * num)) bits)
        | _ => Some (Config AtScan factor q (Word.u64 (num + 2)) bits)
        end
      else Some (Config AtClear factor q (Word.u64 (factor * factor)) bits)
  | AtClear =>
      if num <? size bits then
        Some (Config AtClear factor q
                (Word.u64 (num + Word.u64 (factor * 2)))
                (<[Z.to_nat num := false]> bits))
      else Some (Config AtWhile (Word.u64 (factor + 2)) q num bits)
  end.

(** Interpreter fuel: [runSieve] is given [2 ^ 96] steps. *)
Definition sieve_fuel : nat := 96.

Definition runSieve (bits : list bool) : option (list bool) :=
  Bits <$> run sieve_step sieve_fuel (sieve_init bits).

(** [countPrimes]: the loop variable [i] is an [int], converted to [size_t]
    for the comparison with [Bits.size()] and for the subscript. *)
Definition count_step (bits : list bool) (s : Z * Z) : option (Z * Z) :=
  let '(i, count) := s in
  if Word.u64 i <? size bits then
    Some (Word.i32 (i + 2),
          match at_index bits (Word.u64 i) with
          | Some true => Word.u64 (count + 1)
          | _ => count
          end)
  else None.

Definition count_init (bits : list bool) : Z * Z :=
  (3, if 2 <=? size bits then 1 else 0).

Definition count_fuel : nat := 64.

Definition countPrimes (bits : list bool) : option Z :=
  snd <$> run (count_step bits) count_fuel (count_init bits).

(** [isPrime]. *)
Definition isPrime (bits : list bool) (n : Z) : option bool :=
  if negb (Z.land n 1 =? 0) then at_index bits n else Some false.

(** [resultsDictionary]. *)
Definition resultsDictionary : list (Z * Z) :=
  [ (10, 4); (100, 25); (1000, 168); (10000, 1229); (100000, 9592);
    (1000000, 78498); (10000000, 664579); (100000000, 5761455);
    (1000000000, 50847534); (10000000000, 455052511) ].

(** [resultsDictionary.find(k)]: [None] stands for [end()]. *)
Definition find (k : Z) : option Z :=
  snd <$> List.find (fun e => fst e =? k) resultsDictionary.

(** [validateResults]: the [int] of the table is converted to [size_t] for
    the comparison with the count. *)
Definition validateResults (bits : list bool) : option bool :=
  match find (size bits) with
  | None => Some false
  | Some expected =>
      count ← countPrimes bits; Some (Word.u64 expected =? count)
  end.

(** ** Facts about the interpreter *)

Section ExecFacts.

Context {St : Type} (step : St -> option St).

Lemma nsteps_stuck_le n m s f s' :
  nsteps (step_rel step) n s f -> step f = None -> nsteps (step_rel step) m s s' -> (m <= n)%nat.
Proof.
  intros Hn. revert m s'.
  induction Hn as [f|n s s1 f H1 _ IH]; intros m s' Hf Hm.
  - inversion Hm as [|? ? s2 ? H2]; subst; [lia|].
    unfold step_rel in H2. congruence.
  - inversion Hm as [|m' ? s2 ? H2 Hm']; subst; [lia|].
    unfold step_rel in H1, H2. assert (s1 = s2) as -> by congruence.
    specialize (IH _ _ Hf Hm'). lia.
Qed.

Lemma nsteps_det n s a b : nsteps (step_rel step) n s a -> nsteps (step_rel step) n s b -> a = b.
Proof.
  intros Ha. revert b.
  induction Ha as [a|n s s1 a H1 _ IH]; intros b Hb.
  - by inversion Hb.
  - inversion Hb as [|? ? s2 ? H2 Hb']; subst.
    unfold step_rel in H1, H2. assert (s1 = s2) as -> by congruence.
    by apply IH.
Qed.

Lemma exec_inl d s s' :
  exec step d s = inl s' -> nsteps (step_rel step) (2 ^ d) s s'.
Proof.
  revert s s'. induction d as [|d IH]; intros s s' H; simpl in H.
  - destruct (step s) as [s1|] eqn:E; [|done].
    injection H as <-. by apply nsteps_once.
  - destruct (exec step d s) as [s1|] eqn:E; [|done].
    replace (2 ^ S d)%nat with (2 ^ d + 2 ^ d)%nat by (simpl; lia).
    eapply nsteps_trans; eauto.
Qed.

Lemma exec_inr d s f :
  exec step d s = inr f ->
  step f = None /\ exists n, (n < 2 ^ d)%nat /\ nsteps (step_rel step) n s f.
Proof.
  revert s f. induction d as [|d IH]; intros s f H; simpl in H.
  - destruct (step s) as [s1|] eqn:E; [done|].
    injection H as <-. split; [done|]. exists 0%nat. split; [simpl; lia|constructor].
  - destruct (exec step d s) as [s1|] eqn:E.
    + apply exec_inl in E. apply IH in H as (Hf & n & Hn & Hs).
      split; [done|]. exists (2 ^ d + n)%nat. split; [simpl; lia|].
      eapply nsteps_trans; eauto.
    + injection H as <-. apply IH in E as (Hf & n & Hn & Hs).
      split; [done|]. exists n. split; [simpl; lia|done].
Qed.

Lemma exec_complete d n s f :
  nsteps (step_rel step) n s f -> step f = None -> (n < 2 ^ d)%nat ->
  exec step d s = inr f.
Proof.
  intros Hn Hf Hlt. destruct (exec step d s) as [s'|f'] eqn:E.
  - apply exec_inl in E. pose proof (nsteps_stuck_le _ _ _ _ _ Hn Hf E). lia.
  - apply exec_inr in E as (Hf' & m & Hm & Hs). f_equal.
    pose proof (nsteps_stuck_le _ _ _ _ _ Hn Hf Hs).
    pose proof (nsteps_stuck_le _ _ _ _ _ Hs Hf' Hn).
    assert (m = n) as -> by lia. eapply nsteps_det; eauto.
Qed.

(** A loop whose steps preserve [Inv] and decrease a non-negative
    measure exits, after at most as many steps as the measure says. *)
Lemma measure_halts (Inv : St -> Prop) (mu : St -> Z) :
  (forall s s', Inv s -> step s = Some s' -> Inv s' /\ 0 <= mu s' < mu s) ->
  forall s, Inv s -> 0 <= mu s ->
  exists n f, Z.of_nat n <= mu s /\ nsteps (step_rel step) n s f /\ step f = None /\ Inv f.
Proof.
  intros Hstep s. remember (Z.to_nat (mu s)) as k eqn:Hk.
  revert s Hk. induction k as [k IH] using lt_wf_ind. intros s -> Hs Hmu.
  destruct (step s) as [s'|] eqn:E.
  - destruct (Hstep _ _ Hs E) as [Hs' Hlt].
    destruct (IH (Z.to_nat (mu s'))) with (s := s')
      as (n & f & Hn & Hr & Hf & Hi); [lia|done|done|lia|].
    exists (S n), f. split; [lia|]. split; [|done].
    econstructor; eauto.
  - exists 0%nat, s. split; [lia|]. split; [constructor|done].
Qed.

Lemma run_halts (Inv : St -> Prop) (mu : St -> Z) d :
  (forall s s', Inv s -> step s = Some s' -> Inv s' /\ 0 <= mu s' < mu s) ->
  forall s, Inv s -> 0 <= mu s < 2 ^ Z.of_nat d ->
  exists f, run step d s = Some f /\ step f = None /\ Inv f /\
            reaches step s f.
Proof.
  intros Hstep s Hs Hmu.
  destruct (measure_halts Inv mu Hstep s Hs) as (n & f & Hn & Hr & Hf & Hi);
    [lia|].
  exists f. split; [|split; [done|split; [done|]]].
  - unfold run. erewrite exec_complete; eauto.
    apply Nat2Z.inj_lt. rewrite Nat2Z.inj_pow. simpl. lia.
  - eapply rtc_nsteps_2; eauto.
Qed.

Lemma run_Some d s f :
  run step d s = Some f -> step f = None /\ reaches step s f.
Proof.
  unfold run. destruct (exec step d s) as [|f'] eqn:E; [done|].
  intros [= ->]. apply exec_inr in E as (Hf & n & _ & Hn).
  split; [done|]. eapply rtc_nsteps_2; eauto.
Qed.

Lemma reaches_invariant (Inv : St -> Prop) :
  (forall s s', Inv s -> step s = Some s' -> Inv s') ->
  forall s s', reaches step s s' -> Inv s -> Inv s'.
Proof.
  intros Hstep s s' Hr. induction Hr as [|s s1 s' H1 _ IH]; [done|].
  intros Hs. apply IH. eapply Hstep; eauto.
Qed.

End ExecFacts.

(** ** Arithmetic of the machine types *)

Lemma u64_small z : 0 <= z < 2 ^ 64 -> Word.u64 z = z.
Proof. intros. unfold Word.u64. by apply Z.mod_small. Qed.

Lemma i32_small z : - 2 ^ 31 <= z < 2 ^ 31 -> Word.i32 z = z.
Proof. intros. unfold Word.i32. rewrite Z.mod_small; lia. Qed.

Lemma sqrt_lt_pow2 n : 0 <= n < 2 ^ 52 -> 0 <= Z.sqrt n < 2 ^ 26.
Proof.
  intros. split; [apply Z.sqrt_nonneg|]. apply Z.sqrt_lt_square; lia.
Qed.

Lemma isqrt_small n : 0 <= n < 2 ^ 52 -> Word.isqrt n = Z.sqrt n.
Proof.
  intros H. apply sqrt_lt_pow2 in H. unfold Word.isqrt.
  rewrite i32_small by lia. apply u64_small. lia.
Qed.

Lemma odd_mod2 n : Z.odd n = true <-> n mod 2 = 1.
Proof. rewrite Zmod_odd. destruct (Z.odd n); split; intros; congruence. Qed.

Ltac odd_lia :=
  rewrite ?Z.odd_mul, ?andb_true_iff in *;
  rewrite ?odd_mod2 in *; Z.div_mod_to_equations; lia.

(** ** Primality by trial division *)

(** [odd_trial fuel d n]: no [d + 2 j] with [(d + 2 j)^2 <= n] divides [n]. *)
Fixpoint odd_trial (fuel : nat) (d n : Z) : bool :=
  match fuel with
  | O => n <? d * d
  | S fuel' =>
      (n <? d * d) || (negb (n mod d =? 0) && odd_trial fuel' (d + 2) n)
  end.

(** An odd [n >= 3] without odd divisor between 3 and its square root. *)
Definition odd_prime (n : Z) : bool :=
  (3 <=? n) && Z.odd n && odd_trial (Z.to_nat (Z.sqrt n)) 3 n.

(** [n] is a product of two factors that are both at least 3. *)
Definition composite3 (n : Z) : Prop :=
  exists a b, n = a * b /\ 3 <= a /\ 3 <= b.

Lemma odd_trial_sound fuel d n e j :
  odd_trial fuel d n = true -> 0 < d -> 0 <= j -> e = d + 2 * j ->
  e * e <= n -> ~ (e | n).
Proof.
  revert d j. induction fuel as [|fuel IH]; intros d j Ht Hd Hj -> Hle; simpl in Ht.
  - apply Z.ltb_lt in Ht. nia.
  - apply orb_true_iff in Ht as [Ht|Ht]; [apply Z.ltb_lt in Ht; nia|].
    apply andb_true_iff in Ht as [Hm Ht]. apply negb_true_iff, Z.eqb_neq in Hm.
    destruct (decide (j = 0)) as [->|Hj0].
    + rewrite Z.add_0_r. intros Hdiv. apply Hm. apply Z.mod_divide; [lia|done].
    + apply (IH (d + 2) (j - 1)); [done|lia|lia|lia|].
      replace (d + 2 + 2 * (j - 1)) with (d + 2 * j) by lia. done.
Qed.

Lemma odd_prime_not_composite n : odd_prime n = true -> ~ composite3 n.
Proof.
  unfold odd_prime. rewrite !andb_true_iff. intros [[Hn Ho] Ht] (a & b & -> & Ha & Hb).
  apply Z.leb_le in Hn.
  assert (forall x y, 3 <= x <= y -> Z.odd (x * y) = true ->
            odd_trial (Z.to_nat (Z.sqrt (x * y))) 3 (x * y) = true -> False)
    as Hsym.
  { intros x y Hxy Hodd Htr.
    assert (Z.odd x = true) as Hx by (rewrite Z.odd_mul in Hodd; by destruct (Z.odd x)).
    refine (odd_trial_sound _ 3 (x * y) x ((x - 3) / 2) Htr _ _ _ _ _).
    - lia.
    - apply Z.div_pos; lia.
    - apply odd_mod2 in Hx. Z.div_mod_to_equations. lia.
    - nia.
    - by exists y; lia. }
  destruct (Z_le_gt_dec a b).
  - apply (Hsym a b); [lia|done|done].
  - apply (Hsym b a); [lia| |]; by rewrite Z.mul_comm.
Qed.

Lemma not_composite_prime n :
  3 <= n -> Z.odd n = true -> ~ composite3 n -> prime n.
Proof.
  intros Hn Ho Hc. apply prime_alt. split; [lia|].
  intros d Hd [m Hm]. apply Hc.
  assert (Z.odd d = true /\ Z.odd m = true) as [Hod Hom].
  { subst n. rewrite Z.odd_mul in Ho. by apply andb_true_iff in Ho as [? ?]. }
  exists d, m. split; [lia|].
  assert (1 < m) by nia.
  split; odd_lia.
Qed.

Lemma prime_not_composite n : prime n -> ~ composite3 n.
Proof.
  intros Hp (a & b & -> & Ha & Hb). apply prime_alt in Hp as [_ Hp].
  apply (Hp a); [nia|]. exists b. lia.
Qed.

(** A prime between [2^26] and [2^31]: it bounds every factor that the
    search loop can find for a vector of fewer than [2^52] bits. *)
Definition P0 : Z := 67108879.

Lemma P0_not_composite : ~ composite3 P0.
Proof. apply odd_prime_not_composite. vm_compute. reflexivity. Qed.

(** ** The vector operations *)

Lemma size_nonneg bits : 0 <= size bits.
Proof. unfold size. lia. Qed.

Lemma size_insert (bits : list bool) i b : size (<[i:=b]> bits) = size bits.
Proof. unfold size. by rewrite length_insert. Qed.

Lemma size_construct n : 0 <= n -> size (construct n) = n.
Proof. intros. unfold size, construct. rewrite length_replicate. lia. Qed.

Lemma at_index_construct n i :
  0 <= i < n -> at_index (construct n) i = Some true.
Proof.
  intros. unfold at_index, construct. apply lookup_replicate_2. lia.
Qed.

Lemma at_index_insert_eq (bits : list bool) i b :
  0 <= i < size bits -> at_index (<[Z.to_nat i:=b]> bits) i = Some b.
Proof.
  unfold size, at_index. intros. apply list_lookup_insert_eq. lia.
Qed.

Lemma at_index_insert_ne (bits : list bool) i j b :
  0 <= i -> 0 <= j -> i <> j ->
  at_index (<[Z.to_nat i:=b]> bits) j = at_index bits j.
Proof.
  unfold at_index. intros. apply list_lookup_insert_ne. lia.
Qed.

Lemma at_index_is_Some (bits : list bool) i :
  0 <= i < size bits -> exists b, at_index bits i = Some b.
Proof.
  unfold size, at_index. intros.
  destruct (lookup_lt_is_Some_2 bits (Z.to_nat i)) as [b Hb]; [lia|]. eauto.
Qed.

Lemma at_index_lt (bits : list bool) i b :
  0 <= i -> at_index bits i = Some b -> i < size bits.
Proof.
  unfold size, at_index. intros Hi H. apply lookup_lt_Some in H. lia.
Qed.

(** ** [runSieve] without wrap-around

    For a vector of [N < 2^52] bits none of the 64-bit operations of
    [runSieve] wraps around. [wf] collects the facts about the local variables
    that make this so, [exact_step] is the step of the loop with exact
    arithmetic, and [sieve_measure] bounds the number of steps left. *)

Section RunSieve.

Variable N : Z.
Hypothesis N_range : 0 <= N < 2 ^ 52.

Definition wf_at (p : pc) (factor q num : Z) : Prop :=
  match p with
  | AtWhile => True
  | AtScan =>
      factor <= q /\ factor <= num <= N + 1 /\ Z.odd num = true /\
      (P0 < N -> num <= P0)
  | AtClear =>
      factor <= P0 /\ num < 2 ^ 63 /\
      exists m, num = factor * m /\ factor <= m /\ Z.odd m = true
  end.

Record wf (c : config) : Prop := {
  wf_size : size (Bits c) = N;
  wf_q : q c = Z.sqrt N;
  wf_odd : Z.odd (factor c) = true;
  wf_factor : 3 <= factor c <= P0 + 2;
  wf_P0 : P0 < N -> at_index (Bits c) P0 = Some true;
  wf_pc : wf_at (at_pc c) (factor c) (q c) (num c)
}.

Inductive exact_step : config -> config -> Prop :=
| step_enter f q n bits :
    f <= q ->
    exact_step (Config AtWhile f q n bits) (Config AtScan f q f bits)
| step_found f q n bits :
    n < N -> at_index bits n = Some true ->
    exact_step (Config AtScan f q n bits) (Config AtClear n q (n * n) bits)
| step_skip f q n bits :
    n < N -> at_index bits n = Some false ->
    exact_step (Config AtScan f q n bits) (Config AtScan f q (n + 2) bits)
| step_none f q n bits :
    N <= n ->
    exact_step (Config AtScan f q n bits) (Config AtClear f q (f * f) bits)
| step_clear f q n bits :
    n < N ->
    exact_step (Config AtClear f q n bits)
      (Config AtClear f q (n + 2 * f) (<[Z.to_nat n := false]> bits))
| step_next f q n bits :
    N <= n ->
    exact_step (Config AtClear f q n bits) (Config AtWhile (f + 2) q n bits).

Lemma P0_range : 2 ^ 26 <= P0 < 2 ^ 31.
Proof. unfold P0. lia. Qed.

Lemma sieve_step_exact c c' :
  wf c -> sieve_step c = Some c' -> exact_step c c'.
Proof.
  destruct c as [p f q0 n bits]. intros [Hsz Hq Ho Hf HP Hpc] Hs.
  simpl in *. pose proof P0_range as HP0. pose proof (sqrt_lt_pow2 N N_range).
  destruct p; simpl in Hpc, Hs.
  - destruct (Z.leb_spec f q0); [|done]. injection Hs as <-. by constructor.
  - destruct Hpc as (Hfq & Hn & Hon & HnP).
    destruct (Z.ltb_spec n (size bits)) as [Hlt|Hge].
    + destruct (at_index_is_Some bits n) as [b Hb]; [lia|]. rewrite Hb in Hs.
      assert (n <= P0) by (destruct (Z_lt_le_dec P0 N); lia).
      destruct b; injection Hs as <-.
      * rewrite u64_small by nia. constructor; [lia|done].
      * rewrite u64_small by lia. constructor; [lia|done].
    + injection Hs as <-. rewrite u64_small by nia. constructor. lia.
  - destruct Hpc as (HfP & Hn & m & -> & Hm & Hom).
    destruct (Z.ltb_spec (f * m) (size bits)) as [Hlt|Hge]; injection Hs as <-.
    + rewrite (u64_small (f * 2)) by lia. rewrite u64_small by nia.
      replace (f * m + f * 2) with (f * m + 2 * f) by lia.
      constructor. lia.
    + rewrite u64_small by lia. constructor. lia.
Qed.

Lemma exact_step_wf c c' : wf c -> exact_step c c' -> wf c'.
Proof.
  intros [Hsz Hq Ho Hf HP Hpc] Hs. pose proof P0_range as HP0.
  pose proof (sqrt_lt_pow2 N N_range).
  pose proof (Z.sqrt_le_lin N ltac:(lia)).
  destruct Hs as [f q0 n bits Hle|f q0 n bits Hlt Hb|f q0 n bits Hlt Hb
                 |f q0 n bits Hge|f q0 n bits Hlt|f q0 n bits Hge];
    simpl in *; constructor; simpl; try done.
  - repeat split; try lia; try done.
  - by destruct Hpc as (_ & _ & ? & _).
  - destruct Hpc as (Hfq & Hn & Hon & HnP).
    assert (n <= P0) by (destruct (Z_lt_le_dec P0 N); lia). lia.
  - destruct Hpc as (Hfq & Hn & Hon & HnP).
    assert (n <= P0) by (destruct (Z_lt_le_dec P0 N); lia).
    split; [done|]. split; [nia|]. exists n. split; [done|]. split; [lia|done].
  - destruct Hpc as (Hfq & Hn & Hon & HnP).
    split; [done|]. split; [lia|]. split; [by rewrite Z.odd_add_even by (exists 1; lia)|].
    intros HPN. specialize (HnP HPN). specialize (HP HPN).
    assert (n <> P0) as Hne by (intros ->; congruence).
    assert (Z.odd P0 = true) as HoP by done.
    clear - HnP Hne HoP Hon. odd_lia.
  - destruct Hpc as (Hfq & Hn & Hon & HnP).
    split; [lia|]. split; [nia|]. exists f. split; [done|]. split; [lia|done].
  - by rewrite size_insert.
  - intros HPN. destruct Hpc as (HfP & Hn & m & -> & Hm & Hom).
    rewrite at_index_insert_ne; [by apply HP|nia|lia|].
    intros Heq. apply P0_not_composite. exists f, m. lia.
  - destruct Hpc as (HfP & Hn & m & -> & Hm & Hom).
    split; [done|]. split; [lia|]. exists (m + 2). split; [lia|]. split; [lia|].
    by rewrite Z.odd_add_even by (exists 1; lia).
  - by rewrite Z.odd_add_even by (exists 1; lia).
  - destruct Hpc as (HfP & _). lia.
Qed.

(** The steps left are at most this many. *)
Definition rounds (f : Z) : Z := Z.max 0 (Z.sqrt N + 2 - f).

Definition sieve_measure (c : config) : Z :=
  match at_pc c with
  | AtWhile => rounds (factor c) * (2 * N + 6) + 1
  | AtScan =>
      (rounds (factor c) - 1) * (2 * N + 6) + (N + 2 - num c) + (N + 3)
  | AtClear =>
      rounds (factor c + 2) * (2 * N + 6) + Z.max 0 (N - num c) + 2
  end.

Lemma rounds_nonneg f : 0 <= rounds f.
Proof. unfold rounds. lia. Qed.

Lemma exact_step_measure c c' :
  wf c -> exact_step c c' -> 0 <= sieve_measure c' < sieve_measure c.
Proof.
  intros [Hsz Hq Ho Hf HP Hpc] Hs.
  pose proof (Z.sqrt_le_lin N ltac:(lia)) as Hsq.
  assert (forall f g, f <= g -> rounds g * (2 * N + 6) <= rounds f * (2 * N + 6))
    as Hmono.
  { intros f g Hfg. apply Z.mul_le_mono_nonneg_r; [lia|]. unfold rounds. lia. }
  destruct Hs as [f q0 n bits Hle|f q0 n bits Hlt Hb|f q0 n bits Hlt Hb
                 |f q0 n bits Hge|f q0 n bits Hlt|f q0 n bits Hge];
    unfold sieve_measure; simpl in *.
  - assert (rounds f = Z.sqrt N + 2 - f) as -> by (unfold rounds; lia). nia.
  - destruct Hpc as (Hfq & Hn & Hon & HnP).
    pose proof (Hmono (f + 2) (n + 2) ltac:(lia)).
    pose proof (rounds_nonneg (n + 2)).
    assert (rounds (f + 2) = rounds f - 2) as Hr by (unfold rounds; lia).
    rewrite Hr in *. nia.
  - destruct Hpc as (Hfq & Hn & Hon & HnP).
    assert (2 <= rounds f) by (unfold rounds; lia). nia.
  - destruct Hpc as (Hfq & Hn & Hon & HnP).
    pose proof (rounds_nonneg (f + 2)).
    assert (rounds (f + 2) = rounds f - 2) as Hr by (unfold rounds; lia).
    rewrite Hr in *. nia.
  - pose proof (rounds_nonneg (f + 2)). nia.
  - pose proof (rounds_nonneg (f + 2)). nia.
Qed.

Lemma sieve_step_wf c c' :
  wf c -> sieve_step c = Some c' ->
  wf c' /\ 0 <= sieve_measure c' < sieve_measure c.
Proof.
  intros Hwf Hs. apply sieve_step_exact in Hs; [|done].
  split; [by eapply exact_step_wf|by apply exact_step_measure].
Qed.

Lemma sieve_init_wf bits :
  size bits = N -> (P0 < N -> at_index bits P0 = Some true) ->
  wf (sieve_init bits).
Proof.
  intros Hsz HP. constructor; simpl; try done.
  rewrite Hsz. by apply isqrt_small.
Qed.

Lemma sieve_init_measure bits :
  0 <= sieve_measure (sieve_init bits) < 2 ^ Z.of_nat sieve_fuel.
Proof.
  unfold sieve_measure, sieve_init, sieve_fuel, rounds. simpl at_pc. simpl factor.
  pose proof (sqrt_lt_pow2 N N_range).
  change (2 ^ Z.of_nat 96) with (2 ^ 26 * 2 ^ 70). nia.
Qed.

(** [runSieve] exits, and every invariant of the exact steps holds in
    all the states it passes through. *)
Lemma runSieve_halts (X : config -> Prop) bits :
  size bits = N -> (P0 < N -> at_index bits P0 = Some true) ->
  (forall c c', wf c -> X c -> exact_step c c' -> X c') ->
  X (sieve_init bits) ->
  (forall c, reaches sieve_step (sieve_init bits) c -> wf c /\ X c) /\
  exists c, run sieve_step sieve_fuel (sieve_init bits) = Some c /\
            reaches sieve_step (sieve_init bits) c /\
            at_pc c = AtWhile /\ Z.sqrt N < factor c.
Proof.
  intros Hsz HP HX H0.
  assert (forall c c', wf c /\ X c -> sieve_step c = Some c' ->
            (wf c' /\ X c') /\ 0 <= sieve_measure c' < sieve_measure c)
    as Hstep.
  { intros c c' [Hwf Hx] Hs. destruct (sieve_step_wf _ _ Hwf Hs) as [Hwf' Hm].
    split; [|done]. split; [done|]. apply (HX c c' Hwf Hx).
    by apply sieve_step_exact. }
  assert (wf (sieve_init bits) /\ X (sieve_init bits)) as Hinit
    by (split; [by apply sieve_init_wf|done]).
  split.
  - intros c Hr.
    apply (reaches_invariant sieve_step (fun c => wf c /\ X c)) with (sieve_init bits);
      [|done|done].
    intros s s' Hs Hss. by destruct (Hstep _ _ Hs Hss).
  - destruct (run_halts sieve_step _ sieve_measure sieve_fuel Hstep _ Hinit
                (sieve_init_measure bits)) as (c & Hrun & Hnone & [Hwf _] & Hr).
    exists c. split; [done|]. split; [done|].
    destruct Hwf as [_ Hq _ _ _ _]. destruct c as [p f q0 n b]; simpl in *.
    destruct p; simpl in Hnone.
    + destruct (Z.leb_spec f q0); [done|]. split; [done|lia].
    + destruct (n <? size b); [|done]. by destruct (at_index b n) as [[]|].
    + by destruct (n <? size b).
Qed.

(** *** The first run: what has been crossed off *)

(** [k] has a factor below [F] (and at least 3) whose cofactor is at
    least 3. *)
Definition cross (F k : Z) : Prop :=
  exists d m, k = d * m /\ 3 <= d < F /\ 3 <= m.

(** The cleared flags are those of the odd indices that satisfy [P]. *)
Definition flags (bits : list bool) (P : Z -> Prop) : Prop :=
  forall k, 0 <= k < N ->
    exists b, at_index bits k = Some b /\ (b = false <-> Z.odd k = true /\ P k).

Definition sieving (c : config) : Prop :=
  match at_pc c with
  | AtWhile => flags (Bits c) (cross (factor c))
  | AtScan =>
      flags (Bits c) (cross (factor c)) /\
      forall j, factor c <= j < num c -> Z.odd j = true -> cross (factor c) j
  | AtClear =>
      exists f0, 3 <= f0 <= factor c /\
        (forall j, f0 <= j < factor c -> Z.odd j = true -> cross f0 j) /\
        flags (Bits c)
          (fun k => cross f0 k \/
                    exists m, k = factor c * m /\ factor c <= m /\ k < num c)
  end.

Lemma flags_ext bits (P Q : Z -> Prop) :
  flags bits P ->
  (forall k, 0 <= k < N -> Z.odd k = true -> P k <-> Q k) ->
  flags bits Q.
Proof.
  intros HP HPQ k Hk. destruct (HP k Hk) as (b & Hb & Hiff).
  exists b. split; [done|]. rewrite Hiff. split; intros [Ho H]; (split; [done|]);
    by apply (HPQ k Hk Ho).
Qed.

Lemma cross_mono F G k : F <= G -> cross F k -> cross G k.
Proof. intros HFG (d & m & -> & Hd & Hm). exists d, m. lia. Qed.

Lemma cross_upto f0 f d m :
  (forall j, f0 <= j < f -> Z.odd j = true -> cross f0 j) ->
  3 <= d < f -> Z.odd d = true -> 3 <= m -> cross f0 (d * m).
Proof.
  intros Hskip Hd Hod Hm. destruct (Z_lt_le_dec d f0) as [Hlt|Hge].
  - exists d, m. lia.
  - destruct (Hskip d ltac:(lia) Hod) as (e & m' & -> & He & Hm').
    exists e, (m' * m). split; [lia|]. split; [lia|nia].
Qed.

Lemma sieving_init : sieving (sieve_init (construct N)).
Proof.
  intros k Hk. exists true. split; [by apply at_index_construct|].
  split; [done|]. intros [_ (d & m & _ & Hd & _)]. simpl in Hd. lia.
Qed.

Lemma exact_step_sieving c c' :
  wf c -> sieving c -> exact_step c c' -> sieving c'.
Proof.
  intros [Hsz Hq Ho Hf HP Hpc] Hinv Hs.
  destruct Hs as [f q0 n bits Hle|f q0 n bits Hlt Hb|f q0 n bits Hlt Hb
                 |f q0 n bits Hge|f q0 n bits Hlt|f q0 n bits Hge];
    unfold sieving in *; simpl in *.
  - split; [done|]. intros j Hj. lia.
  - destruct Hinv as [Hfl Hskip]. destruct Hpc as (Hfq & Hn & Hon & HnP).
    exists f. split; [lia|]. split; [done|].
    apply (flags_ext _ _ _ Hfl). intros k Hk Hok. split; [by left|].
    intros [H|(m & -> & Hm & Hlt')]; [done|nia].
  - destruct Hinv as [Hfl Hskip]. destruct Hpc as (Hfq & Hn & Hon & HnP).
    split; [done|]. intros j Hj Hoj.
    destruct (Z_lt_le_dec j n) as [Hjn|Hjn]; [apply Hskip; [lia|done]|].
    assert (j = n) as -> by (clear - Hj Hjn Hoj Hon; odd_lia).
    destruct (Hfl n ltac:(lia)) as (b & Hb' & Hiff).
    assert (b = false) as -> by congruence. by apply Hiff.
  - destruct Hinv as [Hfl Hskip]. destruct Hpc as (Hfq & Hn & Hon & HnP).
    exists f. split; [lia|]. split; [intros j Hj; lia|].
    apply (flags_ext _ _ _ Hfl). intros k Hk Hok. split; [by left|].
    intros [H|(m & -> & Hm & Hlt')]; [done|nia].
  - destruct Hinv as (f0 & Hf0 & Hskip & Hfl).
    destruct Hpc as (HfP & Hn & m0 & -> & Hm0 & Hom0).
    exists f0. split; [done|]. split; [done|]. intros k Hk.
    destruct (decide (k = f * m0)) as [->|Hne].
    + exists false. split; [apply at_index_insert_eq; lia|].
      split; [|done]. intros _. split; [by rewrite Z.odd_mul, Ho, Hom0|].
      right. exists m0. lia.
    + destruct (Hfl k Hk) as (b & Hb & Hiff). exists b.
      split; [rewrite at_index_insert_ne; [done|nia|lia|done]|].
      rewrite Hiff. split; intros [Hok H]; (split; [done|]).
      * destruct H as [H|(m & -> & Hm & Hlt')]; [by left|].
        right. exists m. lia.
      * destruct H as [H|(m & -> & Hm & Hlt')]; [by left|].
        right. exists m. split; [done|]. split; [done|].
        assert (Z.odd m = true)
          by (rewrite Z.odd_mul in Hok; by apply andb_true_iff in Hok as [_ ?]).
        assert (m < m0 + 2) by nia.
        assert (m <> m0) by (intros ->; lia).
        assert (m < m0) by (clear - H H0 H1 Hom0; odd_lia). nia.
  - destruct Hinv as (f0 & Hf0 & Hskip & Hfl).
    destruct Hpc as (HfP & Hn & m0 & -> & Hm0 & Hom0).
    apply (flags_ext _ _ _ Hfl). intros k Hk Hok. split.
    + intros [H|(m & -> & Hm & Hlt')]; [apply (cross_mono f0); [lia|done]|].
      exists f, m. lia.
    + intros (d & m & -> & Hd & Hm).
      rewrite Z.odd_mul in Hok. apply andb_true_iff in Hok as [Hod Hom].
      assert (d <= f) by (clear - Hd Hod Ho; odd_lia).
      destruct (decide (d = f)) as [->|Hdf].
      * destruct (Z_lt_le_dec m f) as [Hmf|Hmf].
        -- left. rewrite Z.mul_comm. apply (cross_upto f0 f); [done|lia|done|lia].
        -- right. exists m. lia.
      * left. apply (cross_upto f0 f); [done|lia|done|lia].
Qed.

Lemma cross_composite f k :
  0 <= k < N -> Z.sqrt N < f -> cross f k <-> composite3 k.
Proof.
  intros Hk Hf. split.
  - intros (d & m & -> & Hd & Hm). exists d, m. lia.
  - intros (a & b & -> & Ha & Hb).
    assert (forall x y, 3 <= x <= y -> x * y < N -> x < f) as Hsmall.
    { intros x y Hxy Hlt. apply Z.le_lt_trans with (Z.sqrt N); [|done].
      apply Z.sqrt_le_square; [lia|lia|nia]. }
    destruct (Z_le_gt_dec a b).
    + exists a, b. split; [done|]. split; [|done]. split; [done|].
      apply (Hsmall a b); lia.
    + exists b, a. split; [lia|]. split; [|done]. split; [done|].
      apply (Hsmall b a); lia.
Qed.

(** After the first run the cleared flags are exactly those of the odd
    products of two factors that are at least 3. *)
Lemma runSieve_construct :
  exists bits, runSieve (construct N) = Some bits /\ size bits = N /\
               flags bits composite3.
Proof.
  destruct (runSieve_halts sieving (construct N)) as (Hall & c & Hrun & Hr & Hpc & Hq).
  - apply size_construct. lia.
  - intros. apply at_index_construct. unfold P0 in *. lia.
  - apply exact_step_sieving.
  - apply sieving_init.
  - destruct (Hall c Hr) as [Hwf Hinv]. exists (Bits c).
    split; [unfold runSieve; by rewrite Hrun|]. split; [by destruct Hwf|].
    unfold sieving in Hinv. rewrite Hpc in Hinv.
    apply (flags_ext _ _ _ Hinv). intros k Hk _. by apply cross_composite.
Qed.

End RunSieve.

(** ** What [runSieve] writes, whatever the flags it starts from *)

Section Frame.

Variable N : Z.
Hypothesis N_range : 0 <= N < 2 ^ 52.

(** The flags of 0, 1, 2 and of the even indices are set. *)
Definition untracked_set (bits : list bool) : Prop :=
  forall k, 0 <= k < N -> k <= 2 \/ Z.even k = true ->
            at_index bits k = Some true.

Lemma exact_step_untracked c c' :
  wf N c -> untracked_set (Bits c) -> exact_step N c c' ->
  untracked_set (Bits c').
Proof.
  intros [Hsz Hq Ho Hf HP Hpc] Hinv Hs.
  destruct Hs as [f q0 n bits Hle|f q0 n bits Hlt Hb|f q0 n bits Hlt Hb
                 |f q0 n bits Hge|f q0 n bits Hlt|f q0 n bits Hge];
    simpl in *; try done.
  destruct Hpc as (HfP & Hn & m & -> & Hm & Hom).
  intros k Hk Hku. rewrite at_index_insert_ne; [by apply Hinv|nia|lia|].
  intros <-. destruct Hku as [Hku|Hku]; [nia|].
  rewrite <- Z.negb_odd, Z.odd_mul, Ho, Hom in Hku. done.
Qed.

(** A step changes no flag but that of an odd product, which it clears. *)
Lemma exact_step_writes c c' k :
  wf N c -> exact_step N c c' -> 0 <= k ->
  at_index (Bits c') k <> at_index (Bits c) k ->
  3 <= k /\ Z.odd k = true /\ at_index (Bits c') k = Some false.
Proof.
  intros [Hsz Hq Ho Hf HP Hpc] Hs Hk.
  destruct Hs as [f q0 n bits Hle|f q0 n bits Hlt Hb|f q0 n bits Hlt Hb
                 |f q0 n bits Hge|f q0 n bits Hlt|f q0 n bits Hge];
    simpl in *; try done.
  destruct Hpc as (HfP & Hn & m & -> & Hm & Hom). intros Hne.
  destruct (decide (k = f * m)) as [->|Hkn].
  - split; [nia|]. split; [by rewrite Z.odd_mul, Ho, Hom|].
    apply at_index_insert_eq. lia.
  - rewrite at_index_insert_ne in Hne; [done|nia|done|done].
Qed.

(** A run over flags that are already final rewrites [false] over
    [false]. *)
Lemma exact_step_swept bits1 c c' :
  flags N bits1 composite3 ->
  wf N c -> Bits c = bits1 -> exact_step N c c' -> Bits c' = bits1.
Proof.
  intros Hfl [Hsz Hq Ho Hf HP Hpc] Hinv Hs.
  destruct Hs as [f q0 n bits Hle|f q0 n bits Hlt Hb|f q0 n bits Hlt Hb
                 |f q0 n bits Hge|f q0 n bits Hlt|f q0 n bits Hge];
    simpl in *; try done.
  destruct Hpc as (HfP & Hn & m & -> & Hm & Hom). subst bits.
  apply list_insert_id.
  destruct (Hfl (f * m) ltac:(nia)) as (b & Hb & Hiff).
  unfold at_index in Hb. rewrite Hb. f_equal. apply Hiff.
  split; [by rewrite Z.odd_mul, Ho, Hom|]. exists f, m. lia.
Qed.

Lemma flags_P0 bits :
  flags N bits composite3 -> P0 < N -> at_index bits P0 = Some true.
Proof.
  intros Hfl HP. destruct (Hfl P0) as (b & Hb & Hiff); [unfold P0 in *; lia|].
  rewrite Hb. f_equal. destruct b; [done|].
  destruct Hiff as [Hiff _]. destruct (Hiff eq_refl) as [_ Hc].
  by apply P0_not_composite in Hc.
Qed.

End Frame.

(** ** [countPrimes] *)

(** The number of [i < n] with [f i]. *)
Fixpoint count_upto (f : Z -> bool) (n : nat) : Z :=
  match n with
  | O => 0
  | S n' => count_upto f n' + (if f (Z.of_nat n') then 1 else 0)
  end.

(** [i] is an odd index, at least 3, whose flag is set. *)
Definition flagged (bits : list bool) (i : Z) : bool :=
  Z.odd i && (3 <=? i) &&
  match at_index bits i with Some true => true | _ => false end.

(** The number of odd indices at least 3 and below [n] whose flag is set. *)
Definition flagged_count (bits : list bool) (n : Z) : Z :=
  count_upto (flagged bits) (Z.to_nat n).

Lemma count_upto_succ f n :
  0 <= n ->
  count_upto f (Z.to_nat (n + 1))
  = count_upto f (Z.to_nat n) + (if f n then 1 else 0).
Proof.
  intros. rewrite Z2Nat.inj_add by lia. rewrite Nat.add_1_r. simpl.
  by rewrite Z2Nat.id.
Qed.

Lemma count_upto_bounds f n : 0 <= count_upto f n <= Z.of_nat n.
Proof. induction n as [|n IH]; simpl; [lia|]. destruct (f _); lia. Qed.

Lemma count_upto_mono f n m :
  (n <= m)%nat -> count_upto f n <= count_upto f m.
Proof.
  induction 1 as [|m _ IH]; [lia|]. simpl. destruct (f _); lia.
Qed.

Lemma count_upto_ext f g n :
  (forall i, 0 <= i < Z.of_nat n -> f i = g i) ->
  count_upto f n = count_upto g n.
Proof.
  induction n as [|n IH]; intros H; simpl; [done|].
  rewrite IH by (intros; apply H; lia). by rewrite H by lia.
Qed.

Lemma flagged_count_step bits v :
  0 <= v -> Z.odd v = true ->
  flagged_count bits (v + 2)
  = flagged_count bits v + (if flagged bits v then 1 else 0).
Proof.
  intros Hv Ho. unfold flagged_count.
  replace (v + 2) with (v + 1 + 1) by lia.
  rewrite !count_upto_succ by lia.
  assert (flagged bits (v + 1) = false) as ->; [|lia].
  unfold flagged. rewrite Z.odd_add, Ho. done.
Qed.

Lemma flagged_count_size bits n :
  size bits <= n -> flagged_count bits n = flagged_count bits (size bits).
Proof.
  intros Hn. pose proof (size_nonneg bits) as H0. unfold flagged_count.
  replace n with (size bits + Z.of_nat (Z.to_nat (n - size bits))) by lia.
  induction (Z.to_nat (n - size bits)) as [|k IH]; [by rewrite Z.add_0_r|].
  replace (size bits + Z.of_nat (S k)) with (size bits + Z.of_nat k + 1) by lia.
  rewrite count_upto_succ by lia. rewrite IH.
  assert (flagged bits (size bits + Z.of_nat k) = false) as ->; [|lia].
  unfold flagged, at_index. rewrite lookup_ge_None_2; [by rewrite andb_false_r|].
  unfold size. lia.
Qed.

Lemma flagged_count_3 bits : flagged_count bits 3 = 0.
Proof. reflexivity. Qed.

(** The counts below are over indices that reach [2^31]: they are reasoned
    about by the lemmas above and never unfolded. *)
Opaque count_upto.

Section CountPrimes.

Variable bits : list bool.
Hypothesis size_range : size bits < 2 ^ 52.

(** The [int] loop variable is the wrapped image of the index [v] the loop
    has come to; it wraps once [v] passes [2^31 - 1], and the comparison
    with the size then ends the loop. *)
Definition counting (s : Z * Z) : Prop :=
  exists v, Z.odd v = true /\ 3 <= v <= 2 ^ 31 + 1 /\
            fst s = Word.i32 v /\
            snd s = snd (count_init bits) + flagged_count bits v.

Definition count_measure (s : Z * Z) : Z :=
  if 0 <=? fst s then 2 ^ 31 + 1 - fst s else 0.

Lemma i32_wrapped : Word.i32 (2 ^ 31 + 1) = - 2 ^ 31 + 1.
Proof. reflexivity. Qed.

Lemma flagged_count_bounds v : 0 <= flagged_count bits v <= Z.max 0 v.
Proof.
  unfold flagged_count. pose proof (count_upto_bounds (flagged bits) (Z.to_nat v)).
  lia.
Qed.

Lemma count_init_bounds : 0 <= snd (count_init bits) <= 1.
Proof. unfold count_init. simpl. destruct (2 <=? size bits); lia. Qed.

Lemma count_step_counting s s' :
  counting s -> count_step bits s = Some s' ->
  counting s' /\ 0 <= count_measure s' < count_measure s.
Proof.
  destruct s as [i count]. intros (v & Ho & Hv & Hi & Hc) Hs.
  simpl in Hi, Hc. unfold count_step in Hs.
  pose proof (size_nonneg bits) as Hn0.
  pose proof (flagged_count_bounds v) as Hfb.
  pose proof count_init_bounds as Hcb.
  destruct (decide (v = 2 ^ 31 + 1)) as [->|Hne].
  { rewrite i32_wrapped in Hi. subst i.
    change (Word.u64 (- 2 ^ 31 + 1)) with (2 ^ 64 - 2 ^ 31 + 1) in Hs.
    destruct (Z.ltb_spec (2 ^ 64 - 2 ^ 31 + 1) (size bits)); [lia|done]. }
  assert (v <= 2 ^ 31 - 1) as Hv' by (clear - Ho Hv Hne; odd_lia).
  rewrite i32_small in Hi by lia. subst i.
  rewrite u64_small in Hs by lia.
  destruct (Z.ltb_spec v (size bits)) as [Hlt|]; [|done].
  injection Hs as <-. split.
  - exists (v + 2). split; [by rewrite Z.odd_add_even by (exists 1; lia)|].
    split; [lia|]. split; [done|]. simpl.
    rewrite flagged_count_step by (done || lia). unfold flagged.
    rewrite Ho. destruct (Z.leb_spec 3 v); [|lia]. simpl.
    simpl in Hcb.
    destruct (at_index bits v) as [[]|]; rewrite Hc; [|lia|lia].
    destruct (2 <=? size bits); rewrite u64_small by lia; lia.
  - unfold count_measure. simpl.
    destruct (Z.leb_spec 0 v); [|lia].
    destruct (decide (v = 2 ^ 31 - 1)) as [->|Hne']; [simpl; lia|].
    assert (v + 2 < 2 ^ 31) by (clear - Ho Hv' Hne'; odd_lia).
    rewrite i32_small by lia. destruct (Z.leb_spec 0 (v + 2)); lia.
Qed.

(** [countPrimes] returns, and counts the flags of the odd indices from 3
    up to the size or up to [2^31], whichever comes first. *)
Lemma countPrimes_spec :
  countPrimes bits
  = Some ((if 2 <=? size bits then 1 else 0)
          + flagged_count bits (Z.min (size bits) (2 ^ 31 + 1))).
Proof.
  pose proof (size_nonneg bits) as Hn0.
  destruct (run_halts (count_step bits) counting count_measure count_fuel
              count_step_counting (count_init bits))
    as (f & Hrun & Hnone & Hinv & _).
  - exists 3. simpl. rewrite flagged_count_3. repeat split; lia.
  - unfold count_measure, count_init, count_fuel. simpl. lia.
  - unfold countPrimes. rewrite Hrun. simpl. f_equal.
    destruct f as [i count]. destruct Hinv as (v & Ho & Hv & Hi & Hc).
    simpl in *. subst count. f_equal.
    destruct (decide (v = 2 ^ 31 + 1)) as [->|Hne].
    + destruct (Z.min_spec (size bits) (2 ^ 31 + 1)) as [[? ->]|[? ->]];
        [|reflexivity].
      apply flagged_count_size. lia.
    + assert (v <= 2 ^ 31 - 1) as Hv' by (clear - Ho Hv Hne; odd_lia).
      rewrite i32_small in Hi by lia. subst i.
      rewrite u64_small in Hnone by lia.
      destruct (Z.ltb_spec v (size bits)) as [|Hge]; [done|].
      rewrite Z.min_l by lia. apply flagged_count_size. lia.
Qed.

End CountPrimes.

(** ** Primes and the final flags *)

Lemma land_1_odd n : (Z.land n 1 =? 0) = negb (Z.odd n).
Proof.
  change 1 with (Z.ones 1) at 1. rewrite Z.land_ones by lia.
  change (2 ^ 1) with 2. rewrite Zmod_odd. by destruct (Z.odd n).
Qed.

Lemma isPrime_odd bits n : Z.odd n = true -> isPrime bits n = at_index bits n.
Proof. intros H. unfold isPrime. by rewrite land_1_odd, H. Qed.

Lemma isPrime_even bits n : Z.even n = true -> isPrime bits n = Some false.
Proof.
  intros H. unfold isPrime. by rewrite land_1_odd, <- Z.negb_even, H.
Qed.

Lemma no_small_divisor_not_composite k :
  (forall d, 3 <= d -> d * d <= k -> ~ (d | k)) -> ~ composite3 k.
Proof.
  intros H (a & b & -> & Ha & Hb). destruct (Z_le_gt_dec a b).
  - apply (H a); [done|nia|]. exists b. lia.
  - apply (H b); [done|nia|]. by exists a.
Qed.

Lemma not_composite_no_small_divisor k :
  ~ composite3 k -> forall d, 3 <= d -> d * d <= k -> ~ (d | k).
Proof.
  intros H d Hd Hle [m ->]. apply H. exists m, d. split; [done|]. nia.
Qed.

Lemma odd_composite_composite3 k :
  Z.odd k = true -> (exists a b, 1 < a /\ 1 < b /\ k = a * b) -> composite3 k.
Proof.
  intros Ho (a & b & Ha & Hb & ->). exists a, b. split; [done|].
  clear - Ho Ha Hb. odd_lia.
Qed.

Lemma odd_prime_iff k :
  3 <= k -> Z.odd k = true -> prime k <-> ~ composite3 k.
Proof.
  intros. split; [apply prime_not_composite|by apply not_composite_prime].
Qed.

(** The flag that the final state holds for an index in range. *)
Lemma flags_lookup N bits k :
  flags N bits composite3 -> 0 <= k < N ->
  (Z.odd k = true -> composite3 k -> at_index bits k = Some false) /\
  (~ (Z.odd k = true /\ composite3 k) -> at_index bits k = Some true).
Proof.
  intros Hfl Hk. destruct (Hfl k Hk) as (b & -> & Hiff). split.
  - intros Ho Hc. f_equal. by apply Hiff.
  - intros Hn. f_equal. destruct b; [done|]. destruct Hn. by apply Hiff.
Qed.

(** * The properties of the specification *)

(** ** The sieve *)

(** C1. For every odd [k] with [3 <= k < N], after [Construct(N)] and
    [RunSieve()], [IsPrime(k)] is true when [k] has no divisor between 3 and
    its square root, and false when [k] is composite. The size is below
    [2^52], where the square root bound of [runSieve] is exact. *)
Theorem isPrime_after_runSieve (N : Z) :
  3 <= N < 2 ^ 52 ->
  exists bits, runSieve (construct N) = Some bits /\
    forall k, 3 <= k < N -> Z.odd k = true ->
      ((forall d, 3 <= d -> d * d <= k -> ~ (d | k)) ->
       isPrime bits k = Some true) /\
      ((exists a b, 1 < a /\ 1 < b /\ k = a * b) ->
       isPrime bits k = Some false).
Proof.
  intros HN. destruct (runSieve_construct N) as (bits & Hrun & Hsz & Hfl); [lia|].
  exists bits. split; [done|]. intros k Hk Ho.
  rewrite isPrime_odd by done.
  destruct (flags_lookup N bits k Hfl) as [Hfalse Htrue]; [lia|]. split.
  - intros Hd. apply Htrue. intros [_ Hc].
    by apply no_small_divisor_not_composite in Hd.
  - intros Hc. apply Hfalse; [done|]. by apply odd_composite_composite3.
Qed.

Lemma isPrime_after_runSieve_witness :
  exists bits, runSieve (construct 1000) = Some bits /\
               isPrime bits 997 = Some true /\ isPrime bits 999 = Some false.
Proof.
  destruct (isPrime_after_runSieve 1000 ltac:(lia)) as (bits & Hrun & H).
  exists bits. split; [exact Hrun|]. split.
  - apply (H 997); [lia|reflexivity|].
    apply not_composite_no_small_divisor, odd_prime_not_composite.
    vm_compute. reflexivity.
  - apply (H 999); [lia|reflexivity|]. exists 3, 333. lia.
Defined.

(** C3, as the code has it. After [RunSieve()] on an instance constructed
    with [N], the flag of an odd index [i >= 3] is set exactly when [i] is
    prime, and the flags of 0, 1, 2 and of the even indices are set. *)
Theorem flags_after_runSieve (N : Z) :
  1 <= N < 2 ^ 52 ->
  exists bits, runSieve (construct N) = Some bits /\ size bits = N /\
    forall i, 0 <= i < N ->
      (3 <= i -> Z.odd i = true -> (at_index bits i = Some true <-> prime i)) /\
      (i <= 2 \/ Z.even i = true -> at_index bits i = Some true).
Proof.
  intros HN. destruct (runSieve_construct N) as (bits & Hrun & Hsz & Hfl); [lia|].
  exists bits. split; [done|]. split; [done|]. intros i Hi.
  destruct (flags_lookup N bits i Hfl) as [Hfalse Htrue]; [lia|]. split.
  - intros H3 Ho. rewrite odd_prime_iff by done. split.
    + intros Ht Hc. rewrite Hfalse in Ht by done. done.
    + intros Hc. apply Htrue. by intros [_ ?].
  - intros Hu. apply Htrue. intros [Ho (a & b & -> & Ha & Hb)].
    destruct Hu as [Hu|Hu]; [nia|]. by rewrite <- Z.negb_odd, Ho in Hu.
Qed.

Lemma flags_after_runSieve_witness :
  exists bits, runSieve (construct 10) = Some bits /\ size bits = 10 /\
               at_index bits 9 = Some false /\ at_index bits 8 = Some true.
Proof.
  destruct (flags_after_runSieve 10 ltac:(lia)) as (bits & Hrun & Hsz & H).
  exists bits. split; [exact Hrun|]. split; [exact Hsz|]. split.
  - destruct (H 9 ltac:(lia)) as [H9 _].
    destruct (at_index_is_Some bits 9 ltac:(lia)) as [[] Hb]; [|exact Hb].
    apply H9 in Hb; [|lia|reflexivity].
    apply prime_not_composite in Hb. destruct Hb. exists 3, 3. lia.
  - destruct (H 8 ltac:(lia)) as [_ H8]. apply H8. by right.
Defined.

(** C3, as the specification states it, fails: after [RunSieve()] on an
    instance constructed with 5 the flag of 4 is set, and 4 is not prime. *)
Lemma flags_iff_prime_counterexample :
  exists bits, runSieve (construct 5) = Some bits /\ (0 <= 4 < 5) /\
               at_index bits 4 = Some true /\ ~ prime 4.
Proof.
  exists [true; true; true; true; true].
  split; [vm_compute; reflexivity|]. split; [lia|]. split; [reflexivity|].
  intros Hp. apply prime_alt in Hp as [_ Hp]. apply (Hp 2); [lia|].
  by exists 2.
Qed.

(** C5. [RunSieve()] only ever clears flags at odd indices that are at
    least 3: in every state that the run passes through, and in the state it
    ends in, the flags of 0, 1, 2 and of the even indices are set, as they
    were after construction. *)
Theorem runSieve_frame (N : Z) :
  1 <= N < 2 ^ 52 ->
  (forall c, reaches sieve_step (sieve_init (construct N)) c ->
     size (Bits c) = N /\
     forall k, 0 <= k < N -> k <= 2 \/ Z.even k = true ->
               at_index (Bits c) k = Some true) /\
  (forall c c', reaches sieve_step (sieve_init (construct N)) c ->
     sieve_step c = Some c' ->
     forall k, 0 <= k -> at_index (Bits c') k <> at_index (Bits c) k ->
               3 <= k /\ Z.odd k = true /\ at_index (Bits c') k = Some false) /\
  exists bits, runSieve (construct N) = Some bits /\
    forall k, 0 <= k < N -> k <= 2 \/ Z.even k = true ->
              at_index bits k = Some true.
Proof.
  intros HN. assert (0 <= N < 2 ^ 52) as HN' by lia.
  destruct (runSieve_halts N HN' (fun c => untracked_set N (Bits c)) (construct N))
    as (Hall & c & Hrun & Hr & _).
  - apply size_construct. lia.
  - intros. apply at_index_construct. unfold P0 in *. lia.
  - intros c c' Hwf. by apply exact_step_untracked.
  - intros k Hk _. by apply at_index_construct.
  - split; [|split].
    + intros c0 Hc0. destruct (Hall c0 Hc0) as [[Hsz _ _ _ _ _] Hu]. done.
    + intros c0 c' Hc0 Hs k Hk. destruct (Hall c0 Hc0) as [Hwf _].
      apply (exact_step_writes N HN' c0 c' k Hwf); [by apply sieve_step_exact|done].
    + exists (Bits c). split; [unfold runSieve; by rewrite Hrun|].
      by destruct (Hall c Hr) as [_ Hu].
Qed.

Lemma runSieve_frame_witness :
  exists bits, runSieve (construct 50) = Some bits /\
               at_index bits 0 = Some true /\ at_index bits 1 = Some true /\
               at_index bits 2 = Some true /\ at_index bits 48 = Some true.
Proof.
  destruct (runSieve_frame 50 ltac:(lia)) as (_ & _ & bits & Hrun & H).
  exists bits. split; [exact Hrun|].
  repeat split; apply H; (lia || (left; lia) || (by right)).
Defined.

(** C6. A second [RunSieve()] on an instance that has been swept changes no
    flag, and so leaves the result of [CountPrimes()] as it was. *)
Theorem runSieve_twice (N : Z) :
  1 <= N < 2 ^ 52 ->
  exists bits bits' count,
    runSieve (construct N) = Some bits /\ runSieve bits = Some bits' /\
    bits' = bits /\
    countPrimes bits = Some count /\ countPrimes bits' = Some count.
Proof.
  intros HN. assert (0 <= N < 2 ^ 52) as HN' by lia.
  destruct (runSieve_construct N HN') as (bits & Hrun & Hsz & Hfl).
  destruct (runSieve_halts N HN' (fun c => Bits c = bits) bits)
    as (Hall & c & Hrun' & Hr & _).
  - done.
  - by apply flags_P0.
  - intros c c' Hwf. by apply exact_step_swept.
  - done.
  - destruct (Hall c Hr) as [_ Hc]. simpl in Hc.
    exists bits, bits. eexists. split; [done|].
    split; [unfold runSieve; by rewrite Hrun', <- Hc at 1|].
    split; [done|]. split; apply countPrimes_spec; lia.
Qed.

Lemma runSieve_twice_witness :
  exists bits count,
    runSieve (construct 100) = Some bits /\ runSieve bits = Some bits /\
    countPrimes bits = Some count.
Proof.
  destruct (runSieve_twice 100 ltac:(lia))
    as (bits & bits' & count & Hrun & Hrun' & Heq & Hc & _).
  exists bits, count. rewrite Heq in Hrun'. auto.
Defined.

(** C7. [IsPrime(k)] is false for every even [k], whatever the flags are:
    the vector is arbitrary, also one that has no index [k], so the answer
    does not come from a flag. *)
Theorem isPrime_even_false (bits : list bool) (k : Z) :
  Z.even k = true -> isPrime bits k = Some false.
Proof. apply isPrime_even. Qed.

Lemma isPrime_even_false_witness :
  isPrime (construct 10) 4 = Some false /\ isPrime [] 4 = Some false.
Proof.
  split; [apply (isPrime_even_false (construct 10) 4)
         |apply (isPrime_even_false [] 4)]; reflexivity.
Defined.



(** ** [validateResults] *)

Lemma find_range k e : find k = Some e -> 0 <= e < 2 ^ 31.
Proof.
  unfold find, resultsDictionary. cbn [List.find fst].
  repeat (destruct (_ =? k); [cbn; intros [= <-]; lia|]). done.
Qed.

(** C4, as the code has it. [ValidateResults()] returns a [bool]: [false]
    when the size is not a key of the table, the value it also returns for a
    key whose entry differs from the count; for a key it returns whether
    [CountPrimes()] equals the entry. *)
Theorem validateResults_outcomes (bits : list bool) :
  size bits < 2 ^ 52 ->
  (find (size bits) = None -> validateResults bits = Some false) /\
  (forall expected, find (size bits) = Some expected ->
     exists count, countPrimes bits = Some count /\
                   validateResults bits = Some (expected =? count)).
Proof.
  intros Hsz. unfold validateResults. split.
  - by intros ->.
  - intros e He. rewrite He, countPrimes_spec by done. eexists. split; [done|].
    simpl. rewrite u64_small; [done|]. apply find_range in He. lia.
Qed.

Lemma validateResults_outcomes_witness :
  validateResults (construct 12345) = Some false /\
  exists count, countPrimes (construct 10) = Some count /\
                validateResults (construct 10) = Some (4 =? count).
Proof.
  split.
  - apply (validateResults_outcomes (construct 12345)); reflexivity.
  - apply (validateResults_outcomes (construct 10)); reflexivity.
Defined.

(** C4, as the specification states it, fails: for the size 12345, which
    is not a key, the swept instance gets the very value that an instance of
    size 10 with a wrong count gets. *)
Lemma validateResults_counterexample :
  find 12345 = None /\
  (exists bits, runSieve (construct 12345) = Some bits /\
                validateResults bits = Some false) /\
  find 10 = Some 4 /\ countPrimes (construct 10) = Some 5 /\
  validateResults (construct 10) = Some false.
Proof.
  split; [reflexivity|]. split; [|by vm_compute].
  destruct (runSieve_construct 12345) as (bits & Hrun & Hsz & _); [lia|].
  exists bits. split; [done|]. unfold validateResults. by rewrite Hsz.
Qed.

(** * The benchmark driver: [main] *)

Module Main.

(** The C library's [atoi] and [atoll]: leading white space, an optional
    sign, then decimal digits up to the first other character. *)
Definition is_space (c : ascii) : bool :=
  let n := Z.of_nat (nat_of_ascii c) in ((9 <=? n) && (n <=? 13)) || (n =? 32).

Definition digit (c : ascii) : option Z :=
  let n := Z.of_nat (nat_of_ascii c) in
  if (48 <=? n) && (n <=? 57) then Some (n - 48) else None.

Fixpoint skip_spaces (s : string) : string :=
  match s with
  | String c s' => if is_space c then skip_spaces s' else s
  | EmptyString => s
  end.

Fixpoint digits (s : string) (acc : Z) : Z :=
  match s with
  | String c s' =>
      match digit c with Some d => digits s' (10 * acc + d) | None => acc end
  | EmptyString => acc
  end.

Definition signed_digits (s : string) : Z :=
  match skip_spaces s with
  | String "-"%char s' => - digits s' 0
  | String "+"%char s' => digits s' 0
  | s' => digits s' 0
  end.

Definition i64 (z : Z) : Z := (z + 2 ^ 63) mod 2 ^ 64 - 2 ^ 63.

Definition atoi (s : string) : Z := Word.i32 (signed_digits s).
Definition atoll (s : string) : Z := i64 (signed_digits s).

Definition DEFAULT_UPPER_LIMIT : Z := 10000000.

(** The variables that the argument loop of [main] sets. *)
Record options : Set := Options {
  ullLimitRequested : Z;
  cThreadsRequested : Z;
  cSecondsRequested : Z;
  bPrintPrimes : bool;
  bOneshot : bool
}.

Definition no_options : options := Options 0 0 0 false false.

(** How the argument loop ends: at [args.end()], by a [return], or with
    the iterator moved past [args.end()] (an option that takes the next
    argument, given last). *)
Inductive parsed : Set :=
| Proceed (o : options)
| Return (code : Z)
| PastTheEnd.

Definition is_flag (a short long : string) : bool :=
  String.eqb a short || String.eqb a long.

Fixpoint parse_args (args : list string) (o : options) : parsed :=
  match args with
  | [] => Proceed o
  | a :: rest =>
      let '(Options limit threads seconds print oneshot) := o in
      if is_flag a "-h"%string "--help"%string then Return 0
      else if is_flag a "-t"%string "--threads"%string then
        match rest with
        | [] => PastTheEnd
        | v :: rest' =>
            parse_args rest'
              (Options limit (Z.min 1 (atoi v)) seconds print oneshot)
        end
      else if is_flag a "-s"%string "--seconds"%string then Return 0
      else if is_flag a "-l"%string "--limit"%string then
        match rest with
        | [] => PastTheEnd
        | v :: rest' =>
            parse_args rest'
              (Options (Word.u64 (Z.min 1 (atoll v))) threads seconds print
                 oneshot)
        end
      else if is_flag a "-1"%string "--oneshot"%string then
        match rest with
        | [] => PastTheEnd
        | _ :: rest' => parse_args rest' (Options limit 1 seconds print true)
        end
      else if is_flag a "-p"%string "--print"%string then
        parse_args rest (Options limit threads seconds true oneshot)
      else parse_args rest o
  end.

(** What the benchmark has done when [main] reaches [printResults]. *)
Record report : Set := Report {
  cPasses : Z;           (* the pass count *)
  waves : nat;           (* iterations of the timed loop *)
  sieve_runs : Z;        (* calls of [runSieve], the workers' and the last *)
  cThreads : Z;
  cSeconds : Z;
  llUpperLimit : Z
}.

Inductive outcome : Set :=
| Returned (code : Z)        (* a [return] of the argument loop *)
| Refused                    (* the Oneshot message and [return 0] *)
| Benchmarked (r : report)
| Undefined.                 (* the iterator went past the end *)

Section Environment.

(** [thread::hardware_concurrency()]. *)
Variable hardware_concurrency : Z.

(** The whole seconds since [tStart] that the [k]-th evaluation of the
    condition of the timed loop reads off [steady_clock]. *)
Variable elapsed : nat -> Z.

(** The timed loop: a wave of [threads] workers, each of which
    constructs a sieve and runs it, then [cPasses += cThreads]. *)
Fixpoint timed_loop (fuel : nat) (seconds threads : Z) (k : nat)
    (passes runs : Z) : option (nat * Z * Z) :=
  match fuel with
  | O => None
  | S fuel' =>
      if elapsed k <? seconds then
        timed_loop fuel' seconds threads (S k)
          (Word.i32 (passes + threads)) (runs + threads)
      else Some (k, passes, runs)
  end.

Definition benchmark (fuel : nat) (o : options) : option outcome :=
  let '(Options limit threads seconds print oneshot) := o in
  if oneshot && ((0 <? seconds) || (1 <? threads)) then Some Refused
  else
    let cSeconds := if seconds =? 0 then 5 else seconds in
    let cThreads :=
      Word.u32 (if threads =? 0 then hardware_concurrency else threads) in
    let llUpperLimit := if limit =? 0 then DEFAULT_UPPER_LIMIT else limit in
    if negb oneshot then
      '(k, passes, runs) ← timed_loop fuel cSeconds cThreads 0 0 0;
      Some (Benchmarked
              (Report passes k (runs + 1) cThreads cSeconds llUpperLimit))
    else
      Some (Benchmarked
              (Report (Word.i32 (0 + 1)) 0 1 cThreads cSeconds llUpperLimit)).

(** [main], up to the call of [printResults]; [fuel] bounds the number
    of waves. *)
Definition main (fuel : nat) (args : list string) : option outcome :=
  match parse_args args no_options with
  | Proceed o => benchmark fuel o
  | Return code => Some (Returned code)
  | PastTheEnd => Some Undefined
  end.

End Environment.

(** The value that [main] returns after the benchmark. *)
Definition exit_code (llUpperLimit : Z) : option Z :=
  bits ← runSieve (construct llUpperLimit);
  ok ← validateResults bits;
  count ← countPrimes bits;
  Some (if ok : bool then Word.i32 count else 0).

End Main.

(** ** The benchmark driver *)

Section MainFacts.

Import Main.

Variable hardware_concurrency : Z.
Variable elapsed : nat -> Z.

(** The argument loop never leaves a time budget, nor a thread count above
    one, in the variables: [--seconds] returns, and the thread count is the
    minimum of 1 and the argument. *)
Definition unconflicted (o : options) : Prop :=
  cSecondsRequested o = 0 /\ cThreadsRequested o <= 1.

Lemma parse_args_unconflicted args :
  forall o o', unconflicted o -> parse_args args o = Proceed o' ->
               unconflicted o'.
Proof.
  assert (forall n args, (length args <= n)%nat ->
            forall o o', unconflicted o -> parse_args args o = Proceed o' ->
                         unconflicted o') as H; [|by apply (H (length args))].
  clear args. induction n as [|n IH]; intros args Hlen o o' Ho Hp.
  - destruct args; [|simpl in Hlen; lia]. simpl in Hp. by injection Hp as <-.
  - destruct args as [|a rest]; [simpl in Hp; by injection Hp as <-|].
    simpl in Hlen. destruct o as [limit threads seconds print oneshot].
    destruct Ho as [Hs Ht]. simpl in Hs, Ht, Hp.
    repeat (destruct (is_flag a _ _); [
      first [ done
            | destruct rest as [|v rest']; [done|];
              simpl in Hlen; apply (IH rest' ltac:(lia) _ _) in Hp; [done|];
              split; simpl; lia
            | apply (IH rest ltac:(lia) _ _) in Hp; [done|]; by split ] |]).
    apply (IH rest ltac:(lia) _ _) in Hp; [done|]. by split.
Qed.

(** In one-shot mode, without conflict, the timed loop is skipped. *)
Lemma benchmark_oneshot fuel o :
  bOneshot o = true -> unconflicted o ->
  exists r, benchmark hardware_concurrency elapsed fuel o
            = Some (Benchmarked r) /\
            cPasses r = 1 /\ waves r = 0%nat /\ sieve_runs r = 1.
Proof.
  destruct o as [limit threads seconds print oneshot].
  intros Ho [Hs Ht]. simpl in *. subst.
  destruct (Z.ltb_spec 1 threads); [lia|]. simpl. eexists. by split.
Qed.

(** When the argument loop comes to [args.end()] with one-shot mode set
    (the option was followed by another argument, which its [i++] skips),
    [main] skips the timed loop, runs the sieve exactly once, and the pass
    count is 1, whatever the thread count it was given or reads off the
    hardware. *)
Lemma oneshot_single_pass (fuel : nat) (args : list string) (o : options) :
  parse_args args no_options = Proceed o -> bOneshot o = true ->
  exists r, main hardware_concurrency elapsed fuel args
            = Some (Benchmarked r) /\
            cPasses r = 1 /\ waves r = 0%nat /\ sieve_runs r = 1.
Proof.
  intros Hp Ho. unfold main. rewrite Hp. apply benchmark_oneshot; [done|].
  apply (parse_args_unconflicted args no_options); [by split|done].
Qed.

(** C8 fails on the code: the branch of the argument loop for [-1] and
    [--oneshot] advances the iterator as the options with a value do, though
    the option has none. Given last (the plain request [prog -1]) it moves
    the iterator past [args.end()]: [main] does not come to the benchmark,
    runs no sieve and credits no pass. *)
Theorem oneshot_last_runs_past_end (fuel : nat) :
  main hardware_concurrency elapsed fuel ["-1"]%string = Some Undefined /\
  main hardware_concurrency elapsed fuel ["--oneshot"]%string
  = Some Undefined /\
  main hardware_concurrency elapsed fuel ["-p"; "-1"]%string = Some Undefined.
Proof. repeat split. Qed.

(** The Oneshot message of [main] is never printed. *)
Lemma main_never_refuses fuel args :
  main hardware_concurrency elapsed fuel args <> Some Refused.
Proof.
  unfold main. destruct (parse_args args no_options) as [o| |] eqn:Hp; [|done|done].
  apply (parse_args_unconflicted args no_options) in Hp as [Hs Ht]; [|by split].
  destruct o as [limit threads seconds print oneshot]. simpl in *. subst.
  destruct (Z.ltb_spec 1 threads); [lia|]. rewrite andb_false_r.
  destruct (negb oneshot); [|done].
  by destruct (timed_loop _ _ _ _ _ _ _) as [[[? ?] ?]|].
Qed.

(** C9 fails on the code: with [-t 4] and [-1] on the command line
    [main] does not refuse; the thread count it keeps is 1, and it runs the
    sieve once and credits one pass. *)
Theorem oneshot_with_threads_runs (fuel : nat) :
  main hardware_concurrency elapsed fuel ["-t"; "4"; "-1"; "-p"]%string
  = Some (Benchmarked (Report 1 0 1 1 5 10000000)).
Proof. reflexivity. Qed.

End MainFacts.

Lemma oneshot_single_pass_witness :
  exists r, Main.main 8 (fun _ => 0) 0 ["-1"; "-p"; "-t"; "0"]%string
            = Some (Main.Benchmarked r) /\
            Main.cPasses r = 1 /\ Main.waves r = 0%nat /\
            Main.sieve_runs r = 1 /\ Main.cThreads r = 8.
Proof.
  destruct (oneshot_single_pass 8 (fun _ => 0) 0
              ["-1"; "-p"; "-t"; "0"]%string
              (Main.Options 0 0 0 false true) eq_refl eq_refl)
    as (r & Hr & Hp & Hw & Hs).
  exists r. repeat split; try assumption.
  injection Hr as <-. reflexivity.
Defined.

(** ** [countPrimes] beyond the range of its [int] counter *)

(** A prime above [2^31]. *)
Definition P1 : Z := 2147483659.

Lemma P1_not_composite : ~ composite3 P1.
Proof. apply odd_prime_not_composite. vm_compute. reflexivity. Qed.

(** For a vector of at most [2^31 + 1] bits [countPrimes] counts all the
    flags of the odd indices from 3 on. *)
Lemma countPrimes_counts_flags bits :
  size bits <= 2 ^ 31 + 1 ->
  countPrimes bits
  = Some ((if 2 <=? size bits then 1 else 0) + flagged_count bits (size bits)).
Proof.
  intros H. rewrite countPrimes_spec by lia. by rewrite Z.min_l by lia.
Qed.

(** C2 fails on the code for the size 10^10, a key of [resultsDictionary]:
    the [int] index of [countPrimes] wraps after [2^31 - 1], which ends the
    loop, and the set flag of the prime [2147483659] is not counted. *)
Theorem countPrimes_misses_flags :
  exists bits count,
    runSieve (construct 10000000000) = Some bits /\
    countPrimes bits = Some count /\
    count < 1 + flagged_count bits 10000000000.
Proof.
  destruct (runSieve_construct 10000000000) as (bits & Hrun & Hsz & Hfl); [lia|].
  exists bits. eexists. split; [done|]. split; [apply countPrimes_spec; lia|].
  rewrite Hsz. change (2 <=? 10000000000) with true. cbv iota.
  rewrite Z.min_r by lia.
  assert (flagged bits P1 = true) as HP1.
  { unfold flagged.
    destruct (flags_lookup _ bits P1 Hfl) as [_ Ht]; [unfold P1; lia|].
    rewrite Ht; [done|]. intros [_ Hc]. by apply P1_not_composite. }
  assert (flagged_count bits (2 ^ 31 + 1) <= flagged_count bits P1) as H1.
  { apply count_upto_mono. unfold P1. lia. }
  assert (flagged_count bits (P1 + 1) <= flagged_count bits 10000000000) as H2.
  { apply count_upto_mono. unfold P1. lia. }
  unfold flagged_count in *. rewrite count_upto_succ in H2 by (unfold P1; lia).
  rewrite HP1 in H2. lia.
Qed.

(** * Further properties of the sieve *)

(** [runSieve] on a vector of fewer than 9 bits: the square root bound is
    below the first factor, the [while] loop is not entered and no flag is
    written, whatever the flags are. *)
Theorem runSieve_below_9 (bits : list bool) :
  size bits < 9 -> runSieve bits = Some bits.
Proof.
  intros Hsz. pose proof (size_nonneg bits) as H0.
  assert (sieve_step (sieve_init bits) = None) as Hnone.
  { unfold sieve_init, sieve_step. rewrite isqrt_small by lia.
    assert (Z.sqrt (size bits) < 3) by (apply Z.sqrt_lt_square; lia).
    destruct (Z.leb_spec 3 (Z.sqrt (size bits))); [lia|done]. }
  destruct (run_halts sieve_step (fun c => c = sieve_init bits) (fun _ => 0)
              sieve_fuel) with (s := sieve_init bits)
    as (f & Hrun & _ & -> & _).
  - intros s s' -> Hs. congruence.
  - done.
  - unfold sieve_fuel. change (2 ^ Z.of_nat 96) with (2 ^ 96). lia.
  - unfold runSieve. by rewrite Hrun.
Qed.

Lemma runSieve_below_9_witness :
  runSieve [true; false; true; true; false; true; true; true]
  = Some [true; false; true; true; false; true; true; true].
Proof.
  apply (runSieve_below_9 [true; false; true; true; false; true; true; true]).
  reflexivity.
Defined.

Lemma count_upto_0 f : count_upto f 0 = 0.
Proof. vm_compute. reflexivity. Qed.

(** The number of odd indices from 3 up to [n]. *)
Lemma flagged_count_construct N n :
  0 <= n <= N ->
  flagged_count (construct N) n = if n <? 3 then 0 else (n - 2) / 2.
Proof.
  intros Hn. unfold flagged_count.
  assert (forall k : nat, Z.of_nat k <= N ->
            count_upto (flagged (construct N)) k
            = if Z.of_nat k <? 3 then 0 else (Z.of_nat k - 2) / 2) as H.
  { induction k as [|k IH]; intros Hle.
    - by rewrite count_upto_0.
    - replace (S k) with (Z.to_nat (Z.of_nat k + 1)) by lia.
      rewrite count_upto_succ by lia. rewrite Nat2Z.id, IH by lia.
      unfold flagged. rewrite at_index_construct by lia.
      replace (Z.of_nat (Z.to_nat (Z.of_nat k + 1))) with (Z.of_nat k + 1) by lia.
      destruct (Z.odd (Z.of_nat k)) eqn:Ho; simpl.
      + apply odd_mod2 in Ho.
        destruct (Z.leb_spec 3 (Z.of_nat k)), (Z.ltb_spec (Z.of_nat k) 3),
          (Z.ltb_spec (Z.of_nat k + 1) 3);
          simpl; Z.div_mod_to_equations; lia.
      + assert (Z.of_nat k mod 2 = 0) by (by rewrite Zmod_odd, Ho).
        destruct (Z.ltb_spec (Z.of_nat k) 3), (Z.ltb_spec (Z.of_nat k + 1) 3);
          Z.div_mod_to_equations; lia. }
  specialize (H (Z.to_nat n)). rewrite Z2Nat.id in H by lia. apply H. lia.
Qed.

(** [countPrimes] before [runSieve]: it returns, with half the size (all
    the odd indices from 3 on, and one for the value 2). *)
Theorem countPrimes_unswept (N : Z) :
  0 <= N <= 2 ^ 31 + 1 -> countPrimes (construct N) = Some (N / 2).
Proof.
  intros HN. rewrite countPrimes_spec by (rewrite size_construct; lia).
  rewrite size_construct by lia. rewrite Z.min_l by lia.
  rewrite flagged_count_construct by lia. f_equal.
  destruct (Z.leb_spec 2 N), (Z.ltb_spec N 3); Z.div_mod_to_equations; lia.
Qed.

Lemma countPrimes_unswept_witness : countPrimes (construct 1000) = Some 500.
Proof. apply (countPrimes_unswept 1000). lia. Defined.

(** The number of primes below [n]. *)
Definition is_prime (i : Z) : bool := if prime_dec i then true else false.

Definition primes_below (n : Z) : Z := count_upto is_prime (Z.to_nat n).

Lemma is_prime_true i : is_prime i = true <-> prime i.
Proof. unfold is_prime. by destruct (prime_dec i). Qed.

Lemma prime_2_or_odd i : prime i -> i = 2 \/ (3 <= i /\ Z.odd i = true).
Proof.
  intros Hp. assert (1 < i) by (by apply prime_alt in Hp as [? _]).
  destruct (decide (i = 2)) as [|Hne]; [by left|right]. split; [lia|].
  destruct (Z.odd i) eqn:Ho; [done|]. apply prime_alt in Hp as [_ Hp].
  destruct (Hp 2); [lia|]. apply Z.mod_divide; [lia|]. by rewrite Zmod_odd, Ho.
Qed.

Lemma flagged_swept N bits i :
  flags N bits composite3 -> 3 <= i < N -> flagged bits i = is_prime i.
Proof.
  intros Hfl Hi. unfold flagged.
  destruct (Hfl i) as (b & -> & Hiff); [lia|].
  destruct (Z.leb_spec 3 i); [|lia]. rewrite andb_true_r.
  destruct (Z.odd i) eqn:Ho; simpl.
  - destruct b; symmetry.
    + apply is_prime_true, not_composite_prime; [lia|done|].
      intros Hc. by destruct Hiff as [_ ?%(fun H => H (conj eq_refl Hc))].
    + apply not_true_is_false. rewrite is_prime_true.
      intros Hc%prime_not_composite. destruct Hiff as [Hiff _].
      by destruct (Hiff eq_refl).
  - symmetry. apply not_true_is_false. rewrite is_prime_true. intros Hp.
    apply prime_2_or_odd in Hp as [->|[_ Ho']]; [lia|congruence].
Qed.

Lemma primes_below_3 : primes_below 3 = 1.
Proof.
  unfold primes_below. change 3 with (0 + 1 + 1 + 1).
  rewrite !count_upto_succ by lia. rewrite count_upto_0.
  change (0 + 1 + 1) with 2. change (0 + 1) with 1.
  assert (is_prime 0 = false) as ->.
  { apply not_true_is_false. rewrite is_prime_true. intros [H _]%prime_alt. lia. }
  assert (is_prime 1 = false) as ->.
  { apply not_true_is_false. rewrite is_prime_true. intros [H _]%prime_alt. lia. }
  assert (is_prime 2 = true) as ->; [|done].
  apply is_prime_true, prime_alt. split; [lia|]. intros n Hn. lia.
Qed.

Lemma flagged_count_swept N bits n :
  flags N bits composite3 -> 3 <= n <= N ->
  1 + flagged_count bits n = primes_below n.
Proof.
  intros Hfl Hn. unfold flagged_count, primes_below.
  replace n with (3 + Z.of_nat (Z.to_nat (n - 3))) by lia.
  assert (3 + Z.of_nat (Z.to_nat (n - 3)) <= N) as Hle by lia. clear Hn.
  induction (Z.to_nat (n - 3)) as [|k IH].
  - change (3 + Z.of_nat 0) with 3. pose proof (flagged_count_3 bits) as H3.
    pose proof primes_below_3 as Hp. unfold flagged_count, primes_below in *. lia.
  - replace (3 + Z.of_nat (S k)) with (3 + Z.of_nat k + 1) by lia.
    rewrite !count_upto_succ by lia.
    rewrite (flagged_swept N bits) by (done || lia).
    specialize (IH ltac:(lia)). lia.
Qed.

(** After [runSieve], [countPrimes] is the number of primes below the size,
    for every size from 3 that the [int] counter of [countPrimes] covers. *)
Theorem countPrimes_is_prime_count (N : Z) :
  3 <= N <= 2 ^ 31 + 1 ->
  exists bits, runSieve (construct N) = Some bits /\
               countPrimes bits = Some (primes_below N).
Proof.
  intros HN. destruct (runSieve_construct N) as (bits & Hrun & Hsz & Hfl); [lia|].
  exists bits. split; [done|]. rewrite countPrimes_spec by lia.
  rewrite Hsz, Z.min_l by lia. destruct (Z.leb_spec 2 N); [|lia].
  f_equal. apply (flagged_count_swept N); [done|lia].
Qed.

Lemma countPrimes_is_prime_count_witness :
  exists bits, runSieve (construct 100) = Some bits /\
               countPrimes bits = Some (primes_below 100).
Proof. apply (countPrimes_is_prime_count 100). lia. Defined.

(** After [runSieve], [isPrime] answers for every index of the vector, and
    answers true exactly for 1 and for the primes other than 2. *)
Theorem isPrime_characterised (N : Z) :
  1 <= N < 2 ^ 52 ->
  exists bits, runSieve (construct N) = Some bits /\
    forall k, 0 <= k < N ->
      exists b, isPrime bits k = Some b /\
                (b = true <-> k = 1 \/ (prime k /\ k <> 2)).
Proof.
  intros HN. destruct (runSieve_construct N) as (bits & Hrun & Hsz & Hfl); [lia|].
  exists bits. split; [done|]. intros k Hk.
  destruct (Z.odd k) eqn:Ho.
  - rewrite isPrime_odd by done.
    destruct (flags_lookup N bits k Hfl) as [Hfalse Htrue]; [lia|].
    destruct (Hfl k) as (b & Hb & Hiff); [lia|]. exists b. split; [done|].
    destruct (decide (k = 1)) as [->|Hk1].
    + split; [by left|]. intros _. destruct b; [done|].
      destruct Hiff as [Hiff _]. destruct (Hiff eq_refl) as [_ (a & c & ? & ? & ?)].
      nia.
    + assert (3 <= k) by (clear - Hk Hk1 Ho; odd_lia).
      rewrite <- not_false_iff_true, Hiff. split.
      * intros Hn. right. split; [|lia]. apply not_composite_prime; [done|done|].
        intros Hc. by apply Hn.
      * intros [?|[Hp _]] [_ Hc]; [lia|]. by apply prime_not_composite in Hc.
  - rewrite isPrime_even by (by rewrite <- Z.negb_odd, Ho).
    exists false. split; [done|]. split; [done|].
    intros [->|[Hp Hne]]; [done|].
    apply prime_2_or_odd in Hp as [?|[_ ?]]; [done|congruence].
Qed.

Lemma isPrime_characterised_witness :
  exists bits, runSieve (construct 10) = Some bits /\
               isPrime bits 1 = Some true /\ isPrime bits 2 = Some false.
Proof.
  destruct (isPrime_characterised 10 ltac:(lia)) as (bits & Hrun & H).
  exists bits. split; [exact Hrun|]. split.
  - destruct (H 1 ltac:(lia)) as ([] & Hb & Hiff); [exact Hb|].
    destruct Hiff as [_ Hiff]. discriminate (Hiff (or_introl eq_refl)).
  - destruct (H 2 ltac:(lia)) as ([] & Hb & Hiff); [|exact Hb].
    destruct Hiff as [Hiff _]. destruct (Hiff eq_refl) as [?|[_ ?]]; [lia|done].
Defined.

(** [isPrime] does not check its argument against the size: it reads
    outside the vector exactly when the argument is odd and not below the
    size. *)
Theorem isPrime_out_of_range (bits : list bool) (k : Z) :
  0 <= k -> isPrime bits k = None <-> Z.odd k = true /\ size bits <= k.
Proof.
  intros Hk. destruct (Z.odd k) eqn:Ho.
  - rewrite isPrime_odd by done. unfold at_index, size.
    rewrite lookup_ge_None. split; [intros; split; [done|lia]|intros [_ ?]; lia].
  - rewrite isPrime_even by (by rewrite <- Z.negb_odd, Ho).
    split; [done|]. by intros [? _].
Qed.

Lemma isPrime_out_of_range_witness :
  isPrime (construct 10) 11 = None /\ isPrime (construct 10) 12 = Some false.
Proof.
  split; [|reflexivity].
  apply (isPrime_out_of_range (construct 10) 11); [lia|].
  split; [reflexivity|]. rewrite size_construct; lia.
Defined.

(** ** The factors that [runSieve] crosses off with *)

(** Primes each below the square of the one before, from 3 up to [P0]:
    between a factor within the square root bound and the size there is
    always one of them. *)
Lemma chain_not_composite :
  ~ composite3 3 /\ ~ composite3 7 /\ ~ composite3 47 /\ ~ composite3 2207 /\
  ~ composite3 4870843.
Proof.
  repeat split; apply odd_prime_not_composite; vm_compute; reflexivity.
Qed.

Lemma prime_between f N :
  3 <= f -> f * f <= N -> N < 2 ^ 52 ->
  exists p, f <= p < N /\ Z.odd p = true /\ ~ composite3 p.
Proof.
  intros Hf Hsq HN.
  destruct chain_not_composite as (_ & H7 & H47 & H2207 & H4870843).
  pose proof P0_not_composite as HP0.
  destruct (Z_le_gt_dec N 47); [exists 7; repeat split; (done || nia)|].
  destruct (Z_le_gt_dec N 2207); [exists 47; repeat split; (done || nia)|].
  destruct (Z_le_gt_dec N 4870843); [exists 2207; repeat split; (done || nia)|].
  destruct (Z_le_gt_dec N P0);
    [exists 4870843; unfold P0 in *; repeat split; (done || nia)|].
  exists P0. unfold P0 in *. repeat split; (done || nia).
Qed.

Section Factors.

Variable N : Z.
Hypothesis N_range : 0 <= N < 2 ^ 52.

(** The search has a set flag ahead of it; the crossing off is by a
    prime. *)
Definition searching (c : config) : Prop :=
  match at_pc c with
  | AtWhile => True
  | AtScan => exists p, num c <= p < N /\ Z.odd p = true /\ ~ composite3 p
  | AtClear => prime (factor c)
  end.

Lemma cross_composite3 f k : cross f k -> composite3 k.
Proof. intros (d & m & -> & Hd & Hm). exists d, m. lia. Qed.

Lemma exact_step_searching c c' :
  wf N c -> sieving N c /\ searching c -> exact_step N c c' ->
  sieving N c' /\ searching c'.
Proof.
  intros Hwf [Hsv Hse] Hs. split; [by eapply exact_step_sieving|].
  destruct Hwf as [Hsz Hq Ho Hf HP Hpc].
  destruct Hs as [f q0 n bits Hle|f q0 n bits Hlt Hb|f q0 n bits Hlt Hb
                 |f q0 n bits Hge|f q0 n bits Hlt|f q0 n bits Hge];
    unfold searching, sieving in *; simpl in *; try done.
  - apply prime_between; [lia| |lia]. subst q0.
    apply Z.sqrt_le_square; lia.
  - destruct Hsv as [Hfl Hskip]. destruct Hpc as (Hfq & Hn & Hon & HnP).
    apply not_composite_prime; [lia|done|]. intros (a & b & -> & Ha & Hb').
    destruct (Hfl (a * b) ltac:(lia)) as (b0 & Hb0 & Hiff).
    assert (b0 = true) as -> by congruence.
    assert (cross f (a * b)) as Hc; [|by destruct Hiff as [_ ?%(fun H => H (conj Hon Hc))]].
    rewrite Z.odd_mul in Hon. apply andb_true_iff in Hon as [Hoa Hob].
    destruct (Z_lt_le_dec a f).
    + exists a, b. lia.
    + destruct (Hskip a ltac:(nia) Hoa) as (d & m & -> & Hd & Hm).
      exists d, (m * b). split; [lia|]. split; [lia|nia].
  - destruct Hsv as [Hfl Hskip]. destruct Hse as (p & Hp & Hop & Hnc).
    destruct Hpc as (Hfq & Hn & Hon & HnP).
    exists p. split; [|done].
    assert (p <> n) as Hne.
    { intros ->. destruct (Hfl n ltac:(lia)) as (b0 & Hb0 & Hiff).
      assert (b0 = false) as -> by congruence.
      destruct Hiff as [Hiff _]. destruct (Hiff eq_refl) as [_ Hc].
      by apply cross_composite3 in Hc. }
    clear - Hp Hne Hop Hon. odd_lia.
  - destruct Hse as (p & Hp & _). lia.
Qed.

Lemma searching_reachable c :
  reaches sieve_step (sieve_init (construct N)) c ->
  wf N c /\ sieving N c /\ searching c.
Proof.
  intros Hr.
  destruct (runSieve_halts N N_range (fun c => sieving N c /\ searching c)
              (construct N)) as [Hall _].
  - apply size_construct. lia.
  - intros. apply at_index_construct. unfold P0 in *. lia.
  - apply exact_step_searching.
  - split; [apply sieving_init|done].
  - by apply Hall.
Qed.

End Factors.

(** In the first run, every factor whose multiples [runSieve] crosses off
    is a prime. *)
Theorem crossing_factor_prime (N : Z) (c : config) :
  0 <= N < 2 ^ 52 ->
  reaches sieve_step (sieve_init (construct N)) c ->
  at_pc c = AtClear -> prime (factor c).
Proof.
  intros HN Hr Hpc. destruct (searching_reachable N HN c Hr) as (_ & _ & Hs).
  unfold searching in Hs. by rewrite Hpc in Hs.
Qed.

(** In the first run, the search for the next factor never comes to the
    end of the vector: it always leaves by its [break]. *)
Theorem search_stays_in_range (N : Z) (c : config) :
  0 <= N < 2 ^ 52 ->
  reaches sieve_step (sieve_init (construct N)) c ->
  at_pc c = AtScan -> num c < size (Bits c).
Proof.
  intros HN Hr Hpc. destruct (searching_reachable N HN c Hr) as (Hwf & _ & Hs).
  unfold searching in Hs. rewrite Hpc in Hs. destruct Hs as (p & Hp & _).
  destruct Hwf as [Hsz _ _ _ _ _]. lia.
Qed.

Lemma crossing_factor_prime_witness : prime 3.
Proof.
  apply (crossing_factor_prime 10 (Config AtClear 3 3 9 (construct 10)));
    [lia| |reflexivity].
  apply rtc_l with (Config AtScan 3 3 3 (construct 10)); [reflexivity|].
  apply rtc_l with (Config AtClear 3 3 9 (construct 10)); [reflexivity|].
  apply rtc_refl.
Defined.

Lemma search_stays_in_range_witness : 5 < 30.
Proof.
  pose (b1 := <[9%nat:=false]> (construct 30)).
  pose (b2 := <[15%nat:=false]> b1).
  pose (b3 := <[21%nat:=false]> b2).
  pose (b4 := <[27%nat:=false]> b3).
  assert (reaches sieve_step (sieve_init (construct 30))
            (Config AtScan 5 5 5 b4)) as Hr.
  { apply rtc_l with (Config AtScan 3 5 3 (construct 30)); [reflexivity|].
    apply rtc_l with (Config AtClear 3 5 9 (construct 30)); [reflexivity|].
    apply rtc_l with (Config AtClear 3 5 15 b1); [reflexivity|].
    apply rtc_l with (Config AtClear 3 5 21 b2); [reflexivity|].
    apply rtc_l with (Config AtClear 3 5 27 b3); [reflexivity|].
    apply rtc_l with (Config AtClear 3 5 33 b4); [reflexivity|].
    apply rtc_l with (Config AtWhile 5 5 33 b4); [reflexivity|].
    apply rtc_l with (Config AtScan 5 5 5 b4); [reflexivity|].
    apply rtc_refl. }
  exact (search_stays_in_range 30 (Config AtScan 5 5 5 b4) ltac:(lia) Hr
           eq_refl).
Defined.

(** * [printResults] *)

(** The counting loop of [printResults]. Its index is a [uint64_t] and its
    bound is [num <= Bits.size()], so it can come to index [Bits.size()]:
    [OutOfRange] is the read of [Bits[num]] there. [shown] holds the numbers
    written to [cout], in order. *)
Inductive print_state : Set :=
| Printing (num count : Z) (shown : list Z)
| OutOfRange.

Definition print_step (bits : list bool) (showResults : bool)
    (s : print_state) : option print_state :=
  match s with
  | Printing num count shown =>
      if num <=? size bits then
        match at_index bits num with
        | Some true =>
            Some (Printing (Word.u64 (num + 2)) (Word.u64 (count + 1))
                    (if showResults then shown ++ [num] else shown))
        | Some false => Some (Printing (Word.u64 (num + 2)) count shown)
        | None => Some OutOfRange
        end
      else None
  | OutOfRange => None
  end.

Definition print_init (bits : list bool) (showResults : bool) : print_state :=
  Printing 3 (if 2 <=? size bits then 1 else 0)
    (if showResults then [2] else []).

Definition print_fuel : nat := 64.

(** The line of statistics: the numbers shown before it, the limit, the two
    counts ([count] of the loop and [countPrimes()]) and the validation. The
    passes, the threads and the duration are the arguments, written as they
    are. *)
Record summary : Set := Summary {
  shown_primes : list Z;
  Limit : Z;
  Counts : Z * Z;
  Valid : bool
}.

Inductive printed : Set :=
| Line (s : summary)
| ReadPastEnd.

Definition printResults (bits : list bool) (showResults : bool)
    : option printed :=
  s ← run (print_step bits showResults) print_fuel (print_init bits showResults);
  match s with
  | OutOfRange => Some ReadPastEnd
  | Printing _ count shown =>
      total ← countPrimes bits;
      ok ← validateResults bits;
      Some (Line (Summary shown (size bits) (count, total) ok))
  end.

(** The [i < n] with [f i], in increasing order. *)
Fixpoint list_upto (f : Z -> bool) (n : nat) : list Z :=
  match n with
  | O => []
  | S n' => list_upto f n' ++ (if f (Z.of_nat n') then [Z.of_nat n'] else [])
  end.

Lemma list_upto_succ f n :
  0 <= n ->
  list_upto f (Z.to_nat (n + 1))
  = list_upto f (Z.to_nat n) ++ (if f n then [n] else []).
Proof.
  intros. rewrite Z2Nat.inj_add by lia. rewrite Nat.add_1_r. simpl.
  by rewrite Z2Nat.id.
Qed.

Lemma list_upto_elem f n x :
  x ∈ list_upto f n <-> 0 <= x < Z.of_nat n /\ f x = true.
Proof.
  induction n as [|n IH]; simpl.
  - rewrite elem_of_nil. lia.
  - rewrite elem_of_app, IH. destruct (f (Z.of_nat n)) eqn:Hf.
    + rewrite list_elem_of_singleton. split.
      * intros [[? ?]| ->]; (split; [lia|done]).
      * intros [? ?]. destruct (decide (x = Z.of_nat n)); [by right|left].
        split; [lia|done].
    + rewrite elem_of_nil. split.
      * intros [[? ?]|[]]. split; [lia|done].
      * intros [? ?]. left. split; [|done].
        destruct (decide (x = Z.of_nat n)) as [->|]; [congruence|lia].
Qed.

Lemma list_upto_sorted f n : StronglySorted Z.lt (list_upto f n).
Proof.
  induction n as [|n IH]; simpl; [constructor|].
  destruct (f (Z.of_nat n)); [|by rewrite app_nil_r].
  apply StronglySorted_app_2; [|done|repeat constructor].
  intros x y Hx Hy%list_elem_of_singleton. subst y.
  apply list_upto_elem in Hx. lia.
Qed.

Lemma list_upto_ext f g n :
  (forall i, 0 <= i < Z.of_nat n -> f i = g i) ->
  list_upto f n = list_upto g n.
Proof.
  induction n as [|n IH]; intros H; simpl; [done|].
  rewrite IH by (intros; apply H; lia). by rewrite H by lia.
Qed.

Lemma list_upto_size bits n :
  size bits <= n ->
  list_upto (flagged bits) (Z.to_nat n)
  = list_upto (flagged bits) (Z.to_nat (size bits)).
Proof.
  intros Hn. pose proof (size_nonneg bits) as H0.
  replace n with (size bits + Z.of_nat (Z.to_nat (n - size bits))) by lia.
  induction (Z.to_nat (n - size bits)) as [|k IH]; [by rewrite Z.add_0_r|].
  replace (size bits + Z.of_nat (S k)) with (size bits + Z.of_nat k + 1) by lia.
  rewrite list_upto_succ by lia. rewrite IH.
  assert (flagged bits (size bits + Z.of_nat k) = false) as ->;
    [|by rewrite app_nil_r].
  unfold flagged, at_index. rewrite lookup_ge_None_2; [by rewrite andb_false_r|].
  unfold size. lia.
Qed.

Lemma list_upto_step bits v :
  0 <= v -> Z.odd v = true ->
  list_upto (flagged bits) (Z.to_nat (v + 2))
  = list_upto (flagged bits) (Z.to_nat v)
    ++ (if flagged bits v then [v] else []).
Proof.
  intros Hv Ho. replace (v + 2) with (v + 1 + 1) by lia.
  rewrite !list_upto_succ by lia.
  assert (flagged bits (v + 1) = false) as ->; [|by rewrite app_nil_r].
  unfold flagged. by rewrite Z.odd_add, Ho.
Qed.

Section PrintResults.

Variable bits : list bool.
Variable showResults : bool.
Hypothesis size_range : size bits < 2 ^ 52.

Definition printing (s : print_state) : Prop :=
  match s with
  | Printing num count shown =>
      Z.odd num = true /\ 3 <= num <= Z.max 3 (size bits + 1) /\
      count = (if 2 <=? size bits then 1 else 0) + flagged_count bits num /\
      shown = if showResults
              then 2 :: list_upto (flagged bits) (Z.to_nat num) else []
  | OutOfRange => Z.odd (size bits) = true /\ 3 <= size bits
  end.

Definition print_measure (s : print_state) : Z :=
  match s with
  | Printing num _ _ => size bits + 5 - num
  | OutOfRange => 0
  end.

Lemma list_upto_3 : list_upto (flagged bits) (Z.to_nat 3) = [].
Proof. reflexivity. Qed.

Lemma print_step_printing s s' :
  printing s -> print_step bits showResults s = Some s' ->
  printing s' /\ 0 <= print_measure s' < print_measure s.
Proof.
  pose proof (size_nonneg bits) as Hn0.
  destruct s as [num count shown|]; [|done].
  intros (Ho & Hnum & Hc & Hsh) Hs. simpl in Hs.
  destruct (Z.leb_spec num (size bits)) as [Hle|]; [|done].
  pose proof (flagged_count_bounds bits num) as Hfb.
  destruct (at_index bits num) as [b|] eqn:Hb.
  - apply at_index_lt in Hb as Hlt; [|lia].
    assert (printing (Printing (num + 2)
              (if b then count + 1 else count)
              (if b then (if showResults then shown ++ [num] else shown)
               else shown))) as Hinv.
    { split; [by rewrite Z.odd_add_even by (exists 1; lia)|]. split; [lia|].
      rewrite flagged_count_step, list_upto_step by (done || lia).
      assert (flagged bits num = b) as ->.
      { unfold flagged. rewrite Ho, Hb. destruct (Z.leb_spec 3 num); [|lia].
        by destruct b. }
      subst count shown.
      destruct b, showResults, (2 <=? size bits); simpl;
        rewrite ?app_nil_r; (split; [lia|done]). }
    rewrite !(u64_small (num + 2)) in Hs by lia.
    destruct b; injection Hs as <-.
    + rewrite u64_small by (destruct (2 <=? size bits); lia).
      split; [done|]. simpl. lia.
    + split; [done|]. simpl. lia.
  - injection Hs as <-. simpl.
    assert (num = size bits) as ->.
    { unfold at_index in Hb. apply lookup_ge_None in Hb. unfold size in *. lia. }
    split; [split; [done|lia]|lia].
Qed.

Lemma print_run :
  exists s, run (print_step bits showResults) print_fuel
              (print_init bits showResults) = Some s /\
            print_step bits showResults s = None /\ printing s.
Proof.
  pose proof (size_nonneg bits) as Hn0.
  destruct (run_halts (print_step bits showResults) printing print_measure
              print_fuel print_step_printing (print_init bits showResults))
    as (s & Hrun & Hnone & Hinv & _).
  - split; [done|]. split; [lia|]. rewrite flagged_count_3, list_upto_3.
    split; [lia|done].
  - unfold print_fuel. simpl. lia.
  - eauto.
Qed.

End PrintResults.

(** With a vector of odd size, 3 or more, [printResults] reads
    [Bits[Bits.size()]], one past the last flag. *)
Theorem printResults_odd_size (bits : list bool) (showResults : bool) :
  Z.odd (size bits) = true -> 3 <= size bits < 2 ^ 52 ->
  printResults bits showResults = Some ReadPastEnd.
Proof.
  intros Ho Hsz.
  destruct (print_run bits showResults) as (s & Hrun & Hnone & Hinv); [lia|].
  unfold printResults. rewrite Hrun. simpl.
  destruct s as [num count shown|]; [|done]. exfalso.
  destruct Hinv as (Hon & Hnum & _). simpl in Hnone.
  destruct (Z.leb_spec num (size bits)); [by destruct (at_index bits num) as [[]|]|].
  clear - Ho Hon Hnum Hsz H. odd_lia.
Qed.

Lemma printResults_odd_size_witness :
  printResults (construct 11) true = Some ReadPastEnd.
Proof.
  apply (printResults_odd_size (construct 11) true); [reflexivity|].
  rewrite size_construct; lia.
Defined.

(** What [printResults] writes for a vector of even size. *)
Lemma printResults_line (bits : list bool) (showResults : bool) :
  Z.even (size bits) = true -> size bits < 2 ^ 52 ->
  exists s, printResults bits showResults = Some (Line s) /\
    Limit s = size bits /\
    fst (Counts s)
    = (if 2 <=? size bits then 1 else 0) + flagged_count bits (size bits) /\
    (size bits <= 2 ^ 31 + 1 -> snd (Counts s) = fst (Counts s)) /\
    shown_primes s
    = if showResults
      then 2 :: list_upto (flagged bits) (Z.to_nat (size bits)) else [].
Proof.
  intros He Hsz.
  destruct (print_run bits showResults) as (s & Hrun & Hnone & Hinv); [lia|].
  unfold printResults. rewrite Hrun. simpl.
  destruct s as [num count shown|].
  - destruct Hinv as (Hon & Hnum & Hc & Hsh). simpl in Hnone.
    destruct (Z.leb_spec num (size bits));
      [by destruct (at_index bits num) as [[]|]|].
    rewrite countPrimes_spec by done.
    assert (exists ok, validateResults bits = Some ok) as [ok ->].
    { unfold validateResults. destruct (find (size bits)); [|eauto].
      rewrite countPrimes_spec by done. simpl. eauto. }
    simpl. eexists. split; [done|]. simpl. split; [done|].
    rewrite flagged_count_size in Hc by lia. split; [done|].
    split; [intros; rewrite Z.min_l by lia; by rewrite Hc|].
    rewrite Hsh. destruct showResults; [|done].
    by rewrite list_upto_size by lia.
  - destruct Hinv as [Ho _]. by rewrite <- Z.negb_even, He in Ho.
Qed.

(** With a vector of even size, [printResults] stays inside the vector; its
    own count is that of the set flags of the odd indices from 3 on, plus one
    if the size is 2 or more, and equals [countPrimes()] up to the size that
    the [int] counter of [countPrimes] covers; with [showResults] it shows 2,
    also for a size below 3, and then these indices in increasing order. *)
Theorem printResults_even_size (bits : list bool) (showResults : bool) :
  Z.even (size bits) = true -> size bits < 2 ^ 52 ->
  exists s, printResults bits showResults = Some (Line s) /\
    Limit s = size bits /\
    fst (Counts s)
    = (if 2 <=? size bits then 1 else 0) + flagged_count bits (size bits) /\
    (size bits <= 2 ^ 31 + 1 -> snd (Counts s) = fst (Counts s)) /\
    shown_primes s
    = if showResults
      then 2 :: list_upto (flagged bits) (Z.to_nat (size bits)) else [].
Proof. apply printResults_line. Qed.

Lemma printResults_even_size_witness :
  exists s, printResults [true; true; true; true; false; false] true
            = Some (Line s) /\
            Limit s = 6 /\ Counts s = (2, 2) /\ shown_primes s = [2; 3].
Proof.
  destruct (printResults_even_size [true; true; true; true; false; false] true
              eq_refl eq_refl) as (s & Hs & Hl & Hc & Hcc & Hsh).
  exists s. split; [exact Hs|]. split; [exact Hl|]. split; [|exact Hsh].
  specialize (Hcc ltac:(discriminate)). destruct (Counts s) as [c1 c2].
  simpl in *. subst. reflexivity.
Defined.

(** After [runSieve] on a vector of even size [N], [printResults] with
    [showResults] shows 2 and then the primes [p] with [3 <= p < N], in
    increasing order. *)
Theorem printResults_shows_primes (N : Z) :
  Z.even N = true -> 0 <= N < 2 ^ 52 ->
  exists bits s l,
    runSieve (construct N) = Some bits /\
    printResults bits true = Some (Line s) /\
    shown_primes s = 2 :: l /\ StronglySorted Z.lt l /\
    forall p, p ∈ l <-> 3 <= p < N /\ prime p.
Proof.
  intros He HN. destruct (runSieve_construct N) as (bits & Hrun & Hsz & Hfl); [lia|].
  destruct (printResults_line bits true) as (s & Hs & _ & _ & _ & Hsh);
    [by rewrite Hsz|lia|].
  exists bits, s, (list_upto (flagged bits) (Z.to_nat N)).
  split; [done|]. split; [done|]. split; [by rewrite Hsh, Hsz|].
  split; [apply list_upto_sorted|]. intros p.
  rewrite list_upto_elem, Z2Nat.id by lia. split.
  - intros [Hp Hf].
    assert (3 <= p).
    { unfold flagged in Hf. destruct (Z.leb_spec 3 p); [done|].
      by rewrite andb_false_r in Hf. }
    rewrite (flagged_swept N) in Hf by (done || lia).
    apply is_prime_true in Hf. split; [lia|done].
  - intros [Hp Hpr]. split; [lia|].
    rewrite (flagged_swept N) by (done || lia). by apply is_prime_true.
Qed.

Lemma printResults_shows_primes_witness :
  exists bits s l,
    runSieve (construct 20) = Some bits /\
    printResults bits true = Some (Line s) /\
    shown_primes s = 2 :: l /\ 19 ∈ l /\ 15 ∉ l.
Proof.
  destruct (printResults_shows_primes 20 eq_refl ltac:(lia))
    as (bits & s & l & Hrun & Hs & Hsh & _ & Hl).
  exists bits, s, l. split; [exact Hrun|]. split; [exact Hs|].
  split; [exact Hsh|]. split.
  - apply Hl. split; [lia|].
    apply not_composite_prime; [lia|reflexivity|].
    apply odd_prime_not_composite. vm_compute. reflexivity.
  - intros [_ Hp]%Hl. apply prime_not_composite in Hp. apply Hp.
    exists 3, 5. lia.
Defined.

(** * Further properties of [main] *)

Lemma i32_range z : - 2 ^ 31 <= Word.i32 z < 2 ^ 31.
Proof. unfold Word.i32. pose proof (Z.mod_pos_bound (z + 2 ^ 31) (2 ^ 32)). lia. Qed.

Lemma i64_range z : - 2 ^ 63 <= Main.i64 z < 2 ^ 63.
Proof.
  unfold Main.i64. pose proof (Z.mod_pos_bound (z + 2 ^ 63) (2 ^ 64)). lia.
Qed.

Lemma i32_add_i32 a b : Word.i32 (Word.i32 a + b) = Word.i32 (a + b).
Proof.
  unfold Word.i32. f_equal.
  replace ((a + 2 ^ 31) mod 2 ^ 32 - 2 ^ 31 + b + 2 ^ 31)
    with ((a + 2 ^ 31) mod 2 ^ 32 + b) by lia.
  rewrite Zplus_mod_idemp_l. f_equal. lia.
Qed.

Lemma i32_idem z : Word.i32 (Word.i32 z) = Word.i32 z.
Proof. apply i32_small, i32_range. Qed.

Section MainSettings.

Import Main.

Variable hardware_concurrency : Z.
Variable elapsed : nat -> Z.

(** What the argument loop can leave in its variables: no time budget; a
    thread count of at most 1; a limit of 0, of 1, or the image of a negative
    number. *)
Definition clamped (o : options) : Prop :=
  cSecondsRequested o = 0 /\
  - 2 ^ 31 <= cThreadsRequested o <= 1 /\
  (ullLimitRequested o = 0 \/ ullLimitRequested o = 1 \/
   2 ^ 63 <= ullLimitRequested o < 2 ^ 64).

Lemma clamped_limit v :
  let l := Word.u64 (Z.min 1 (atoll v)) in
  l = 0 \/ l = 1 \/ 2 ^ 63 <= l < 2 ^ 64.
Proof.
  pose proof (i64_range (signed_digits v)) as H. unfold atoll. simpl.
  destruct (Z_lt_le_dec (i64 (signed_digits v)) 0).
  - right. right. rewrite Z.min_r by lia. unfold Word.u64.
    rewrite <- (Z_mod_plus_full _ 1). rewrite Z.mod_small; lia.
  - destruct (decide (i64 (signed_digits v) = 0)) as [->|]; [by left|].
    right. left. by rewrite Z.min_l by lia.
Qed.

Lemma parse_args_clamped args :
  forall o o', clamped o -> parse_args args o = Proceed o' -> clamped o'.
Proof.
  assert (forall n args, (length args <= n)%nat ->
            forall o o', clamped o -> parse_args args o = Proceed o' ->
                         clamped o') as H; [|by apply (H (length args))].
  clear args. induction n as [|n IH]; intros args Hlen o o' Ho Hp.
  - destruct args; [|simpl in Hlen; lia]. simpl in Hp. by injection Hp as <-.
  - destruct args as [|a rest]; [simpl in Hp; by injection Hp as <-|].
    simpl in Hlen. destruct o as [limit threads seconds print oneshot].
    destruct Ho as (Hs & Ht & Hl). simpl in Hs, Ht, Hl, Hp.
    destruct (is_flag a "-h" "--help"); [done|].
    destruct (is_flag a "-t" "--threads").
    { destruct rest as [|v rest']; [done|]. simpl in Hlen.
      apply (IH rest' ltac:(lia) _ _) in Hp; [done|].
      pose proof (i32_range (signed_digits v)). unfold atoi.
      repeat split; simpl; (done || lia). }
    destruct (is_flag a "-s" "--seconds"); [done|].
    destruct (is_flag a "-l" "--limit").
    { destruct rest as [|v rest']; [done|]. simpl in Hlen.
      apply (IH rest' ltac:(lia) _ _) in Hp; [done|].
      repeat split; simpl; try (done || lia). apply clamped_limit. }
    destruct (is_flag a "-1" "--oneshot").
    { destruct rest as [|v rest']; [done|]. simpl in Hlen.
      apply (IH rest' ltac:(lia) _ _) in Hp; [done|].
      repeat split; simpl; (done || lia). }
    destruct (is_flag a "-p" "--print").
    { apply (IH rest ltac:(lia) _ _) in Hp; [done|].
      repeat split; simpl; (done || lia). }
    apply (IH rest ltac:(lia) _ _) in Hp; [done|].
    repeat split; simpl; (done || lia).
Qed.

Lemma no_options_clamped : clamped no_options.
Proof. repeat split; simpl; lia. Qed.

(** The timed loop, for a clock that reads less than the budget [w] times
    and then at least the budget. *)
Lemma timed_loop_waves seconds threads w fuel :
  forall k passes runs,
    (k <= w)%nat -> (w - k < fuel)%nat -> Word.i32 passes = passes ->
    (forall j, (k <= j < w)%nat -> elapsed j < seconds) ->
    seconds <= elapsed w ->
    timed_loop elapsed fuel seconds threads k passes runs
    = Some (w, Word.i32 (passes + Z.of_nat (w - k) * threads),
            runs + Z.of_nat (w - k) * threads).
Proof.
  induction fuel as [|fuel IH]; intros k passes runs Hk Hf Hp Hlt Hge; [lia|].
  simpl. destruct (decide (k = w)) as [->|Hne].
  - destruct (Z.ltb_spec (elapsed w) seconds); [lia|].
    rewrite Nat.sub_diag. simpl. rewrite !Z.add_0_r. by rewrite Hp.
  - destruct (Z.ltb_spec (elapsed k) seconds) as [|Hk'].
    + rewrite IH; [|lia|lia|apply i32_idem|intros; apply Hlt; lia|done].
      rewrite i32_add_i32.
      assert (Z.of_nat (w - k) = Z.of_nat (w - S k) + 1) as -> by lia.
      f_equal. f_equal; [f_equal; f_equal; lia|lia].
    + specialize (Hlt k ltac:(lia)). lia.
Qed.

(** Whatever the command line, [main] returns 0 from the argument loop,
    runs past the end of the arguments, or goes on to the benchmark (which
    ends or is still in its timed loop when the fuel is used up): the refusal
    of a one-shot conflict is not among its outcomes. *)
Theorem main_outcomes (fuel : nat) (args : list string) :
  main hardware_concurrency elapsed fuel args = Some (Returned 0) \/
  main hardware_concurrency elapsed fuel args = Some Undefined \/
  main hardware_concurrency elapsed fuel args = None \/
  exists r, main hardware_concurrency elapsed fuel args = Some (Benchmarked r).
Proof.
  unfold main. destruct (parse_args args no_options) as [o|code|] eqn:Hp.
  - apply parse_args_clamped in Hp as (Hs & Ht & _); [|apply no_options_clamped].
    destruct o as [limit threads seconds print oneshot]. simpl in *. subst.
    destruct (Z.ltb_spec 1 threads); [lia|]. rewrite andb_false_r.
    destruct (negb oneshot); [|eauto 10].
    destruct (timed_loop _ _ _ _ _ _ _) as [[[? ?] ?]|]; simpl; eauto 10.
  - left. f_equal. f_equal.
    assert (forall n args o, (length args <= n)%nat ->
              parse_args args o = Return code -> code = 0) as H.
    { clear. induction n as [|n IH]; intros args o Hlen Hp.
      - destruct args; [done|simpl in Hlen; lia].
      - destruct args as [|a rest]; [done|]. simpl in Hlen, Hp.
        destruct o as [limit threads seconds print oneshot].
        repeat (destruct (is_flag a _ _); [
          first [ by injection Hp
                | destruct rest as [|v rest']; [done|];
                  simpl in Hlen; by apply (IH rest' _ ltac:(lia)) in Hp
                | by apply (IH rest _ ltac:(lia)) in Hp ] |]).
        by apply (IH rest _ ltac:(lia)) in Hp. }
    by apply (H (length args) args no_options).
  - auto.
Qed.

(** Whatever the command line, a benchmark runs with a budget of 5
    seconds; its limit is 10,000,000, or 1, or at least [2^63]; its thread
    count is 1, or the hardware's, or at least [2^31]: the minimum with 1
    that the argument loop takes keeps every larger value out. *)
Theorem main_settings (fuel : nat) (args : list string) (r : report) :
  main hardware_concurrency elapsed fuel args = Some (Benchmarked r) ->
  cSeconds r = 5 /\
  (llUpperLimit r = 10000000 \/ llUpperLimit r = 1 \/
   2 ^ 63 <= llUpperLimit r < 2 ^ 64) /\
  (cThreads r = 1 \/ cThreads r = Word.u32 hardware_concurrency \/
   2 ^ 31 <= cThreads r < 2 ^ 32).
Proof.
  unfold main. destruct (parse_args args no_options) as [o|code|] eqn:Hp;
    [|done|done].
  apply parse_args_clamped in Hp as (Hs & Ht & Hl); [|apply no_options_clamped].
  destruct o as [limit threads seconds print oneshot]. simpl in *. subst.
  destruct (Z.ltb_spec 1 threads); [lia|]. rewrite andb_false_r. simpl.
  assert (let t := Word.u32 (if threads =? 0 then hardware_concurrency
                             else threads) in
          t = 1 \/ t = Word.u32 hardware_concurrency \/ 2 ^ 31 <= t < 2 ^ 32)
    as Hthreads.
  { simpl. destruct (Z.eqb_spec threads 0); [by right; left|].
    destruct (decide (threads = 1)) as [->|]; [by left|]. right. right.
    unfold Word.u32. rewrite <- (Z_mod_plus_full _ 1). rewrite Z.mod_small; lia. }
  assert (let l := if limit =? 0 then DEFAULT_UPPER_LIMIT else limit in
          l = 10000000 \/ l = 1 \/ 2 ^ 63 <= l < 2 ^ 64) as Hlimit.
  { simpl. destruct (Z.eqb_spec limit 0); [by left|]. right.
    destruct Hl as [?|[?|?]]; [done|by left|by right]. }
  simpl in Hthreads, Hlimit.
  destruct oneshot; simpl.
  - intros [= <-]. simpl. done.
  - destruct (timed_loop _ _ _ _ _ _ _) as [[[? ?] ?]|]; [|done]. simpl.
    intros [= <-]. simpl. done.
Qed.

(** In timed mode, when the clock reads less than the 5 seconds at [w]
    evaluations of the loop condition and 5 seconds or more at the next,
    [main] runs [w] waves, the pass count is [w] times the thread count
    (as an [int]), and [runSieve] has run once per worker and once more. *)
Theorem timed_pass_count (fuel : nat) (args : list string) (o : options)
    (w : nat) :
  parse_args args no_options = Proceed o -> bOneshot o = false ->
  (forall j, (j < w)%nat -> elapsed j < 5) -> 5 <= elapsed w ->
  (w < fuel)%nat ->
  exists r, main hardware_concurrency elapsed fuel args = Some (Benchmarked r) /\
            waves r = w /\
            cPasses r = Word.i32 (Z.of_nat w * cThreads r) /\
            sieve_runs r = Z.of_nat w * cThreads r + 1.
Proof.
  intros Hp Ho Hlt Hge Hf. unfold main. rewrite Hp.
  apply parse_args_clamped in Hp as (Hs & Ht & Hl); [|apply no_options_clamped].
  destruct o as [limit threads seconds print oneshot]. simpl in *. subst.
  rewrite (timed_loop_waves 5 _ w); [|lia|lia|done|intros; apply Hlt; lia|done].
  simpl. eexists. split; [done|]. simpl. rewrite Nat.sub_0_r. done.
Qed.

End MainSettings.

Lemma main_settings_witness :
  Main.main 8 (fun _ => 5) 1 ["-l"; "1000"; "-t"; "8"; "-p"]%string
  = Some (Main.Benchmarked (Main.Report 0 0 1 1 5 1)) /\
  Main.cSeconds (Main.Report 0 0 1 1 5 1) = 5 /\
  (Main.llUpperLimit (Main.Report 0 0 1 1 5 1) = 10000000 \/
   Main.llUpperLimit (Main.Report 0 0 1 1 5 1) = 1 \/
   2 ^ 63 <= Main.llUpperLimit (Main.Report 0 0 1 1 5 1) < 2 ^ 64).
Proof.
  split; [reflexivity|].
  destruct (main_settings 8 (fun _ => 5) 1
              ["-l"; "1000"; "-t"; "8"; "-p"]%string
              (Main.Report 0 0 1 1 5 1) eq_refl) as (Hs & Hl & _).
  split; [exact Hs|exact Hl].
Defined.

Lemma timed_pass_count_witness :
  exists r, Main.main 4 (fun j => Z.of_nat j * 3) 10 ["-p"]%string
            = Some (Main.Benchmarked r) /\
            Main.waves r = 2%nat /\ Main.cPasses r = 8 /\
            Main.sieve_runs r = 9.
Proof.
  destruct (timed_pass_count 4 (fun j => Z.of_nat j * 3) 10 ["-p"]%string
              (Main.Options 0 0 0 true false) 2 eq_refl eq_refl)
    as (r & Hr & Hw & Hp & Hs); [intros; lia|simpl; lia|lia|].
  exists r. split; [exact Hr|]. split; [exact Hw|].
  injection Hr as <-. split; reflexivity.
Defined.

(** The value that [main] returns after the benchmark is the count of the
    table for the limit, or 0: it is 0 when the limit is not a key of the
    table, and never a count that differs from the table's. *)
Theorem exit_code_entry_or_zero (limit : Z) :
  0 <= limit < 2 ^ 52 ->
  exists code, Main.exit_code limit = Some code /\
               (code = 0 \/ find limit = Some code).
Proof.
  intros Hl. destruct (runSieve_construct limit Hl) as (bits & Hrun & Hsz & _).
  unfold Main.exit_code. rewrite Hrun. simpl.
  unfold validateResults. rewrite Hsz, countPrimes_spec by lia.
  destruct (find limit) as [e|] eqn:Hf; simpl.
  - apply find_range in Hf as He. rewrite u64_small by lia.
    destruct (Z.eqb_spec e (((if 2 <=? size bits then 1 else 0) +
               flagged_count bits (Z.min (size bits) (2 ^ 31 + 1)))))
      as [Heq|]; [|eauto].
    rewrite <- Heq. rewrite i32_small by lia. eauto.
  - eauto.
Qed.

Lemma exit_code_entry_or_zero_witness : Main.exit_code 1 = Some 0.
Proof.
  destruct (exit_code_entry_or_zero 1 ltac:(lia)) as (code & Hc & [->|Hf]);
    [exact Hc|discriminate Hf].
Defined.

(** * Further properties of [countPrimes] and [validateResults] *)

Lemma countPrimes_counts_flags_witness :
  countPrimes [true; true; true; true; false; true]
  = Some ((if 2 <=? size [true; true; true; true; false; true] then 1 else 0)
          + flagged_count [true; true; true; true; false; true]
              (size [true; true; true; true; false; true])).
Proof.
  apply (countPrimes_counts_flags [true; true; true; true; false; true]).
  discriminate.
Defined.

(** After [runSieve], for a size from 3 that the counter of [countPrimes]
    covers and that is a key of the table, [validateResults] tells whether
    the entry of the table is the number of primes below the size. *)
Theorem validateResults_checks_prime_count (N expected : Z) :
  3 <= N <= 2 ^ 31 + 1 -> find N = Some expected ->
  exists bits, runSieve (construct N) = Some bits /\
               validateResults bits = Some (expected =? primes_below N).
Proof.
  intros HN Hf. destruct (runSieve_construct N) as (bits & Hrun & Hsz & Hfl); [lia|].
  exists bits. split; [done|]. unfold validateResults.
  rewrite Hsz, Hf, countPrimes_spec by lia. simpl.
  rewrite Hsz, Z.min_l by lia. destruct (Z.leb_spec 2 N); [|lia].
  rewrite (flagged_count_swept N) by (done || lia).
  apply find_range in Hf. by rewrite u64_small by lia.
Qed.

Lemma validateResults_checks_prime_count_witness :
  exists bits, runSieve (construct 100) = Some bits /\
               validateResults bits = Some (25 =? primes_below 100).
Proof.
  apply (validateResults_checks_prime_count 100 25); [lia|reflexivity].
Defined.
